(** * go-ds-pebble: the datastore of [datastore.go], embedded and verified

    The development follows the source file top-down: byte strings and
    the engine they are stored in, the range bounds of a prefix scan, the
    query planner, the result streamer, the batch writer and the close
    protocol.  Go values are embedded shallowly: a [[]byte] or [string]
    is a [list byte], an [int] is a [Z], an [error] is a value of [Err]
    or its absence, and a Go function that mutates the datastore takes
    the state and gives it back. *)

From Stdlib Require Import ZArith NArith Lia Bool.
From Stdlib Require Import Strings.Byte Strings.String.
From stdpp Require Import base tactics option list.

#[local] Set Warnings "-clear-no-such-hyp".

Local Open Scope Z_scope.

(** ** Byte strings *)

Module Bytes.

Abbreviation bytes := (list byte).

(** [b + 1] on a Go [byte]: addition modulo 256. *)
Definition byte_inc (b : byte) : byte :=
  match Byte.of_N ((Byte.to_N b + 1) mod 256) with
  | Some c => c
  | None => x00
  end.

(** [bytes.Compare], the order of the engine's default comparer:
    byte-wise lexicographic, a proper prefix sorting first. *)
Fixpoint compare (a b : bytes) : comparison :=
  match a, b with
  | [], [] => Eq
  | [], _ :: _ => Lt
  | _ :: _, [] => Gt
  | x :: a', y :: b' =>
      match N.compare (Byte.to_N x) (Byte.to_N y) with
      | Eq => compare a' b'
      | c => c
      end
  end.

Definition le (a b : bytes) : Prop := compare a b <> Gt.
Definition lt (a b : bytes) : Prop := compare a b = Lt.

(** [bytes.HasPrefix k p]. *)
Fixpoint HasPrefix (k p : bytes) {struct p} : bool :=
  match p, k with
  | [], _ => true
  | _ :: _, [] => false
  | y :: p', x :: k' => Byte.eqb x y && HasPrefix k' p'
  end.

(** The builtin [copy(dst, src)]: the first [min (len dst) (len src)]
    elements of [dst] are overwritten, the rest of [dst] is kept. *)
Definition copy (dst src : bytes) : bytes :=
  let n := Nat.min (length dst) (length src) in
  take n src ++ drop n dst.

(** [make([]byte, n)]. *)
Definition make (n : nat) : bytes := replicate n x00.

End Bytes.

Import Bytes.

(** ** Range bounds of a prefix scan ([Query], the [UpperBound] closure) *)

(** The loop [for i := len(prefix) - 1; i >= 0; i--].  The argument [n]
    is [i + 1], so that [n = 0] is the exit [i < 0] with [upper] still
    nil.  A byte equal to 0xff is skipped ([continue]); the first other
    byte ends the loop ([break]) with [upper] the copy of the first
    [i + 1] bytes of the prefix, its last byte incremented. *)
Fixpoint upperBoundLoop (prefix : bytes) (n : nat) : option bytes :=
  match n with
  | O => None
  | S i =>
      match prefix !! i with
      | Some b =>
          if Byte.eqb b xff then upperBoundLoop prefix i
          else
            let upper := make (i + 1) in
            let upper := copy upper prefix in
            Some (<[i := byte_inc b]> upper)
      | None => None
      end
  end.

(** [IterOptions.UpperBound]; [None] is the nil slice, no upper bound. *)
Definition UpperBound (prefix : bytes) : option bytes :=
  upperBoundLoop prefix (length prefix).

(** The same bound in the words of the specification: scanning from the
    last byte backward, drop the bytes equal to 0xff; the first byte
    that is not 0xff is incremented and the prefix is cut after it. *)
Fixpoint dropMaxBytes (r : bytes) : bytes :=
  match r with
  | [] => []
  | b :: r' => if Byte.eqb b xff then dropMaxBytes r' else r
  end.

Definition upper_spec (P : bytes) : option bytes :=
  match dropMaxBytes (reverse P) with
  | [] => None
  | b :: r => Some (reverse r ++ [byte_inc b])
  end.

(** Membership in the scanned range [[lower, upper)]. *)
Definition in_range (lower : bytes) (upper : option bytes) (k : bytes) : Prop :=
  Bytes.le lower k /\
  match upper with
  | Some u => Bytes.lt k u
  | None => True
  end.


(** ** The data model of go-datastore's [query] package *)

Module query.

(** [query.Entry]; [Value] is [None] for the nil slice of a keys-only
    entry, [Size] is the zero value unless sizes are requested. *)
Record Entry := mkEntry {
  Key : bytes;
  Value : option bytes;
  Size : Z
}.

(** [query.Order], by the dynamic types the planner's type switches tell
    apart: the two key orders, each as a value or as a pointer, and any
    other implementation, which carries its comparison. *)
Inductive Order :=
| OrderByKey
| OrderByKeyPtr
| OrderByKeyDescending
| OrderByKeyDescendingPtr
| OrderOther (cmp : Entry -> Entry -> Z).

(** [query.Filter]: the method [Filter(e Entry) bool]. *)
Definition Filter := Entry -> bool.

(** [query.Query], with the fields that [Query] reads. *)
Record Query := mkQuery {
  Prefix : bytes;
  Filters : list Filter;
  Orders : list Order;
  Limit : Z;
  Offset : Z;
  KeysOnly : bool;
  ReturnExpirations : bool;
  ReturnsSizes : bool
}.

Definition with_Limit (n : Z) (q : Query) : Query :=
  mkQuery (Prefix q) (Filters q) (Orders q) n (Offset q)
          (KeysOnly q) (ReturnExpirations q) (ReturnsSizes q).
Definition with_Offset (n : Z) (q : Query) : Query :=
  mkQuery (Prefix q) (Filters q) (Orders q) (Limit q) n
          (KeysOnly q) (ReturnExpirations q) (ReturnsSizes q).
Definition with_Orders (os : list Order) (q : Query) : Query :=
  mkQuery (Prefix q) (Filters q) os (Limit q) (Offset q)
          (KeysOnly q) (ReturnExpirations q) (ReturnsSizes q).
Definition with_Prefix (p : bytes) (q : Query) : Query :=
  mkQuery p (Filters q) (Orders q) (Limit q) (Offset q)
          (KeysOnly q) (ReturnExpirations q) (ReturnsSizes q).
Definition with_Filters (fs : list Filter) (q : Query) : Query :=
  mkQuery (Prefix q) fs (Orders q) (Limit q) (Offset q)
          (KeysOnly q) (ReturnExpirations q) (ReturnsSizes q).

(** Go's [error] values that occur in the file. *)
Inductive Err :=
| ErrNotFound                                   (* ds.ErrNotFound *)
| PebbleErrNotFound                             (* pebble.ErrNotFound *)
| ErrEngine (code : nat)                        (* any other engine error *)
| ErrWrap (msg : string) (e : Err)              (* fmt.Errorf("msg: %w", e) *)
| ErrIncompatibleOrders (orders : list Order)   (* "incompatible orders passed: %+v" *)
| PebbleErrClosed                               (* the engine's error on a closed handle *)
| ErrCloseRequested.                            (* fmt.Errorf("close requested") *)

(** [query.Result]: an entry or an error. *)
Record Result := mkResult {
  REntry : Entry;
  RError : option Err
}.

Definition zeroEntry : Entry := mkEntry [] None 0.
Definition ResultOfEntry (e : Entry) : Result := mkResult e None.
Definition ResultOfError (err : Err) : Result := mkResult zeroEntry (Some err).

(** [query.Results], as what a consumer observes of it: the query it
    answers and the events delivered on its channel, in order. *)
Record Results := mkResults {
  RQuery : Query;
  REvents : list Result
}.

(** [query.ResultsWithEntries]. *)
Definition ResultsWithEntries (q : Query) (es : list Entry) : Results :=
  mkResults q (map ResultOfEntry es).

(** [query.ResultsReplaceQuery]. *)
Definition ResultsReplaceQuery (r : Results) (q : Query) : Results :=
  mkResults q (REvents r).

(** The entries and the errors among delivered events. *)
Definition entry_of (r : Result) : option Entry :=
  match RError r with
  | None => Some (REntry r)
  | Some _ => None
  end.
Definition entries_of (rs : list Result) : list Entry := omap entry_of rs.
Definition errors_of (rs : list Result) : list Err := omap RError rs.

End query.

Import query.

(** What [Query] takes from go-datastore and does not define: the
    normal form of a key ([ds.NewKey(s).String()]) and the in-memory
    evaluation of a query over results ([query.NaiveQueryApply]). *)
Class GoDatastore := {
  NewKey_String : bytes -> bytes;
  NaiveQueryApply : query.Query -> Results -> Results
}.

(** ** The engine: a sorted store with cursors

    The storage engine (pebble) is a collaborator of the datastore and
    not part of its source.  It is modelled at the interface that
    [datastore.go] uses, after the engine contract of the specification. *)

(** One stored key with what the engine yields for it: the value or the
    error of reading it ([Get], [ValueAndErr]), and the error a cursor
    reports while it sits on the key ([Iterator.Error]).  The interface
    of the cursor allows an error at a position that is valid, and the
    loops of [Query] are embedded and verified for any such cursor; the
    cursor of pebble itself is never valid where it has an error, which
    [valid_positions] below accounts for. *)
Record Cell := mkCell {
  ckey : bytes;
  cvalue : bytes + Err;
  cerror : option Err
}.

(** Lifetime and positioning of cursors, as the engine sees them. *)
Inductive IterEvent :=
| EvNewIter (id : nat)
| EvFirst (id : nat)
| EvLast (id : nat)
| EvClose (id : nat).

#[global] Instance IterEvent_eq_dec : EqDecision IterEvent.
Proof. solve_decision. Defined.

(** Modelled from the spec: [pebble.DB], the engine handle, whose code
    is not part of the source.  It holds the cells in ascending key
    order, the errors the engine answers with when it cannot hand out a
    cursor or take a write, the log of cursor events and the counts of
    [Flush] and [Close]. *)
Record DB := mkDB {
  cells : list Cell;
  newIterErr : option Err;
  writeErr : option Err;
  iterlog : list IterEvent;
  nextIter : nat;
  flushes : nat;
  closes : nat
}.

Definition with_cells (cs : list Cell) (db : DB) : DB :=
  mkDB cs (newIterErr db) (writeErr db) (iterlog db) (nextIter db)
       (flushes db) (closes db).
Definition log_event (ev : IterEvent) (db : DB) : DB :=
  mkDB (cells db) (newIterErr db) (writeErr db) (iterlog db ++ [ev])
       (nextIter db) (flushes db) (closes db).

(** [pebble.IterOptions]. *)
Record IterOptions := mkIterOptions {
  LowerBound : bytes;
  UpperBoundOpt : option bytes
}.

Definition in_rangeb (lower : bytes) (upper : option bytes) (k : bytes) : bool :=
  match Bytes.compare lower k with Gt => false | _ => true end &&
  match upper with
  | Some u => match Bytes.compare k u with Lt => true | _ => false end
  | None => true
  end.

(** Modelled from the spec: [pebble.Iterator], the engine's cursor,
    whose code is not part of the source, as the streamer uses it
    ([First], [Last], [Next], [Prev], [Valid], [Key], [ValueAndErr],
    [Error], [Close]).  [icells] are the cells within the bounds
    (lower inclusive, upper exclusive), ascending.  [ahead] are the
    positions that the chosen [move] still shows, the current one
    first: [First] with [Next] travels [icells] forward, [Last] with
    [Prev] backward; a cursor that was never positioned, or has run
    out, shows none ([Valid] is false). *)
Record Iterator := mkIterator {
  iid : nat;
  icells : list Cell;
  ahead : list Cell
}.

Definition NewIterWithContext (db : DB) (opts : IterOptions)
  : DB * (Iterator + Err) :=
  match newIterErr db with
  | Some err => (db, inr err)
  | None =>
      let id := nextIter db in
      let within :=
        filter (fun c => Is_true (in_rangeb (LowerBound opts)
                                            (UpperBoundOpt opts) (ckey c)))
               (cells db) in
      (mkDB (cells db) (newIterErr db) (writeErr db)
            (iterlog db ++ [EvNewIter id]) (S id) (flushes db) (closes db),
       inl (mkIterator id within []))
  end.

Definition iter_First (db : DB) (it : Iterator) : DB * Iterator :=
  (log_event (EvFirst (iid it)) db, mkIterator (iid it) (icells it) (icells it)).
Definition iter_Last (db : DB) (it : Iterator) : DB * Iterator :=
  (log_event (EvLast (iid it)) db,
   mkIterator (iid it) (icells it) (reverse (icells it))).
Definition iter_Close (db : DB) (it : Iterator) : DB :=
  log_event (EvClose (iid it)) db.
Definition iter_Valid (it : Iterator) : bool :=
  match ahead it with [] => false | _ :: _ => true end.

(** Modelled from the spec: [DB.Get], [DB.Set] and [DB.Delete] of the
    engine, on the sorted cells. *)
Fixpoint cells_get (key : bytes) (cs : list Cell) : option Cell :=
  match cs with
  | [] => None
  | c :: cs' =>
      match Bytes.compare key (ckey c) with
      | Eq => Some c
      | _ => cells_get key cs'
      end
  end.

Fixpoint cells_set (key value : bytes) (cs : list Cell) : list Cell :=
  match cs with
  | [] => [mkCell key (inl value) None]
  | c :: cs' =>
      match Bytes.compare key (ckey c) with
      | Lt => mkCell key (inl value) None :: c :: cs'
      | Eq => mkCell key (inl value) None :: cs'
      | Gt => c :: cells_set key value cs'
      end
  end.

Fixpoint cells_delete (key : bytes) (cs : list Cell) : list Cell :=
  match cs with
  | [] => []
  | c :: cs' =>
      match Bytes.compare key (ckey c) with
      | Eq => cells_delete key cs'
      | _ => c :: cells_delete key cs'
      end
  end.

Definition db_Get (db : DB) (key : bytes) : bytes + Err :=
  match cells_get key (cells db) with
  | Some c => cvalue c
  | None => inr PebbleErrNotFound
  end.

Definition db_Set (db : DB) (key value : bytes) : DB * option Err :=
  match writeErr db with
  | Some err => (db, Some err)
  | None => (with_cells (cells_set key value (cells db)) db, None)
  end.

Definition db_Delete (db : DB) (key : bytes) : DB * option Err :=
  match writeErr db with
  | Some err => (db, Some err)
  | None => (with_cells (cells_delete key (cells db)) db, None)
  end.



(** ** The datastore *)

(** [Datastore]: the engine handle, the close-once flag ([status], 0 or
    1), whether the [closing] channel has been closed, and the counter
    of the wait group [wg]. *)
Record Datastore := mkDatastore {
  db : DB;
  status : Z;
  closing : bool;
  wg : Z
}.

Definition with_db (x : DB) (d : Datastore) : Datastore :=
  mkDatastore x (status d) (closing d) (wg d).
Definition wg_Add (n : Z) (d : Datastore) : Datastore :=
  mkDatastore (db d) (status d) (closing d) (wg d + n).
Definition wg_Done (d : Datastore) : Datastore := wg_Add (-1) d.

(** [errors.Is(err, pebble.ErrNotFound)] and [errors.Is(err,
    ds.ErrNotFound)]: the error or one that it wraps is the target. *)
Fixpoint errors_Is_PebbleErrNotFound (err : Err) : bool :=
  match err with
  | PebbleErrNotFound => true
  | ErrWrap _ e => errors_Is_PebbleErrNotFound e
  | _ => false
  end.

Fixpoint errors_Is_ErrNotFound (err : Err) : bool :=
  match err with
  | ErrNotFound => true
  | ErrWrap _ e => errors_Is_ErrNotFound e
  | _ => false
  end.

(** [Datastore.get]: the engine's not-found error becomes the
    datastore's; the closer of a found value closes without error. *)
Definition get (d : Datastore) (key : bytes) : bytes + Err :=
  match db_Get (db d) key with
  | inr err =>
      if errors_Is_PebbleErrNotFound err then inr ErrNotFound else inr err
  | inl val => inl val
  end.

Definition Get (d : Datastore) (key : bytes) : bytes + Err := get d key.

Definition Has (d : Datastore) (key : bytes) : bool * option Err :=
  match get d key with
  | inr err =>
      if errors_Is_ErrNotFound err then (false, None) else (false, Some err)
  | inl _ => (true, None)
  end.

Definition GetSize (d : Datastore) (key : bytes) : Z * option Err :=
  match get d key with
  | inr err => (-1, Some err)
  | inl val => (Z.of_nat (length val), None)
  end.

Definition Put (d : Datastore) (key value : bytes) : Datastore * option Err :=
  match db_Set (db d) key value with
  | (db', Some err) => (with_db db' d, Some (ErrWrap "pebble error during set" err))
  | (db', None) => (with_db db' d, None)
  end.

Definition Delete (d : Datastore) (key : bytes) : Datastore * option Err :=
  match db_Delete (db d) key with
  | (db', Some err) => (with_db db' d, Some (ErrWrap "pebble error during delete" err))
  | (db', None) => (with_db db' d, None)
  end.

(** ** The result streamer (the goroutine of [Query]) *)

(** What happens to one send on [outCh]: the consumer receives it, or
    one of [d.closing], [proc.Closed()], [proc.Closing()] fires first;
    in that case [notified] tells whether the consumer still takes the
    non-blocking send of the close error. *)
Inductive Outcome :=
| Received
| Gone (notified : bool).

(** The consumer and the signals around it, by the number of the send. *)
Definition Consumer := nat -> Outcome.

(** [outCh]: the events delivered so far, the sends attempted so far. *)
Record Chan := mkChan {
  delivered : list Result;
  attempts : nat
}.

(** Code that sends on [outCh] and may stop by [panic(interrupted)]:
    [None] is the panic, which the deferred [recover] swallows. *)
Definition Stream (A : Type) : Type := Chan -> option A * Chan.

Definition ret {A} (x : A) : Stream A := fun ch => (Some x, ch).
Definition bind {A B} (m : Stream A) (k : A -> Stream B) : Stream B :=
  fun ch =>
    match m ch with
    | (Some x, ch') => k x ch'
    | (None, ch') => (None, ch')
    end.

Declare Scope stream_scope.
Delimit Scope stream_scope with stream.
Notation "'let*' x := m 'in' k" := (bind m (fun x => k))
  (at level 10, x name, m at level 100, k at level 200) : stream_scope.
Notation "m ;; k" := (bind m (fun _ => k))
  (at level 100, k at level 200, right associativity) : stream_scope.

Section Streamer.

Variable consumer : Consumer.
Variables (offset limit : Z) (filters : list Filter).
Variables (keysOnly returnSizes : bool).

Definition sendOrInterrupt (r : Result) : Stream unit :=
  fun ch =>
    match consumer (attempts ch) with
    | Received =>
        (Some tt, mkChan (delivered ch ++ [r]) (S (attempts ch)))
    | Gone notified =>
        (None,
         mkChan (if notified
                 then delivered ch ++ [ResultOfError ErrCloseRequested]
                 else delivered ch)
                (S (attempts ch)))
    end.

(** [filterFn]: the entry passes every filter. *)
Fixpoint filterFn (fs : list Filter) (entry : Entry) : bool :=
  match fs with
  | [] => true
  | f :: fs' => if negb (f entry) then false else filterFn fs' entry
  end.

Definition doFilter : bool := (0 <? Z.of_nat (length filters)).

(** [createEntry] at the cell under the cursor. *)
Definition createEntry (c : Cell) : Entry + Err :=
  let entry := mkEntry (ckey c) None 0 in
  let withValue :=
    if negb keysOnly then
      match cvalue c with
      | inr err => inr err
      | inl val =>
          let cpy := copy (make (length val)) val in
          inl (mkEntry (Key entry) (Some cpy) (Size entry))
      end
    else inl entry in
  match withValue with
  | inr err => inr err
  | inl entry =>
      if returnSizes then
        match cvalue c with
        | inr err => inr err
        | inl val => inl (mkEntry (Key entry) (Value entry) (Z.of_nat (length val)))
        end
      else inl entry
  end.

(** [if err := iter.Error(); err != nil { sendOrInterrupt(...) }]. *)
Definition reportError (c : Cell) : Stream unit :=
  match cerror c with
  | Some err => sendOrInterrupt (ResultOfError err)
  | None => ret tt
  end.

(** The loop [for skipped := 0; skipped < offset && iter.Valid(); move()],
    from the state it is in: [skipped] so far, the cursor showing
    [cs].  It gives back what the cursor shows when the loop ends.  The
    counters [skipped] and [sent] are Go [int]s that count cells of the
    cursor; they stay far below the point where an [int] wraps around
    and are embedded as unbounded integers. *)
Fixpoint skipLoop (skipped : Z) (cs : list Cell) : Stream (list Cell) :=
  match cs with
  | [] => ret []
  | c :: rest =>
      if skipped <? offset then
        (reportError c ;;
         match createEntry c with
         | inr _ => skipLoop skipped rest
         | inl e =>
             if doFilter && negb (filterFn filters e)
             then skipLoop skipped rest
             else skipLoop (skipped + 1) rest
         end)%stream
      else ret cs
  end.

(** The loop [for sent := 0; (limit <= 0 || sent < limit) && iter.Valid(); move()]. *)
Fixpoint emitLoop (sent : Z) (cs : list Cell) : Stream unit :=
  match cs with
  | [] => ret tt
  | c :: rest =>
      if (limit <=? 0) || (sent <? limit) then
        (reportError c ;;
         match createEntry c with
         | inr _ => emitLoop sent rest
         | inl entry =>
             if doFilter && negb (filterFn filters entry)
             then emitLoop sent rest
             else (sendOrInterrupt (ResultOfEntry entry) ;;
                   emitLoop (sent + 1) rest)
         end)%stream
      else ret tt
  end.

(** The body of the goroutine, before its deferred calls. *)
Definition streamer (cs : list Cell) : Stream unit :=
  (let* rest := skipLoop 0 cs in emitLoop 0 rest)%stream.

End Streamer.

(** ** The query planner and [Query] *)

Definition slash : bytes := ["/"%byte].

#[global] Instance byte_eq_dec : EqDecision byte := Byte.byte_eq_dec.

(** The two cases of the planner's type switches. *)
Definition isKeyAscending (o : Order) : bool :=
  match o with
  | OrderByKey | OrderByKeyPtr => true
  | _ => false
  end.
Definition isKeyDescending (o : Order) : bool :=
  match o with
  | OrderByKeyDescending | OrderByKeyDescendingPtr => true
  | _ => false
  end.
Definition isKeyOrder (o : Order) : bool :=
  isKeyAscending o || isKeyDescending o.

(** The loop [for _, o := range orders] of the [default] case, from the
    state it is in: [baseOrder] so far, the orders [os] still to range
    over.  [inr] is the early return of the error. *)
Fixpoint baseOrderLoop (orders : list Order) (baseOrder : option Order)
         (os : list Order) : option Order + Err :=
  match os with
  | [] => inl baseOrder
  | o :: os' =>
      match baseOrder with
      | Some _ => inr (ErrIncompatibleOrders orders)
      | None =>
          let baseOrder :=
            match o with
            | OrderByKey | OrderByKeyDescending
            | OrderByKeyPtr | OrderByKeyDescendingPtr => Some o
            | OrderOther _ => baseOrder
            end in
          baseOrderLoop orders baseOrder os'
      end
  end.

Section Planner.

Context `{GoDatastore}.
Variable consumer : Consumer.

(** [Query] from the check [if !iter.Valid()] on, for a cursor that
    the planner has positioned.  The goroutine is run to its end
    against the consumer: its deferred calls swallow the interrupt,
    close the cursor and leave the wait group.  This gives the events
    of the stream; the state in which the call itself returns, with the
    goroutine still to run, is that of [startQuery] below. *)
Definition runQuery (d : Datastore) (q : query.Query) (iter : Iterator)
  : Datastore * (Results + Err) :=
  if negb (iter_Valid iter) then
    (with_db (iter_Close (db d) iter) d, inl (ResultsWithEntries q []))
  else
    let d := wg_Add 1 d in
    let '(_, ch) :=
      streamer consumer (Offset q) (Limit q) (Filters q)
               (KeysOnly q) (ReturnsSizes q) (ahead iter) (mkChan [] 0) in
    let d := with_db (iter_Close (db d) iter) d in
    let d := wg_Done d in
    (d, inl (mkResults q (delivered ch))).

(** [inefficientOrderQuery], with [d.Query] as [self]. *)
Definition inefficientOrderQuery
           (self : Datastore -> query.Query -> Datastore * (Results + Err))
           (d : Datastore) (q : query.Query) (baseOrder : option Order)
  : Datastore * (Results + Err) :=
  let baseQuery := q in
  let baseQuery := with_Limit 0 baseQuery in
  let baseQuery := with_Offset 0 baseQuery in
  let baseQuery := with_Orders [] baseQuery in
  let baseQuery :=
    match baseOrder with
    | Some o => with_Orders [o] baseQuery
    | None => baseQuery
    end in
  match self d baseQuery with
  | (d, inr err) => (d, inr err)
  | (d, inl res) =>
      let res := ResultsReplaceQuery res q in
      let naiveQuery := q in
      let naiveQuery := with_Prefix [] naiveQuery in
      let naiveQuery := with_Filters [] naiveQuery in
      (d, inl (NaiveQueryApply naiveQuery res))
  end.

(** The body of [Query], with the recursive call through
    [inefficientOrderQuery] as [self].  A [defer iter.Close()] runs
    when the call it is in returns. *)
Definition QueryF
           (self : Datastore -> query.Query -> Datastore * (Results + Err))
           (d : Datastore) (q : query.Query) : Datastore * (Results + Err) :=
  let prefix := NewKey_String (Prefix q) in
  let orders := Orders q in
  let prefix := if decide (prefix = slash) then prefix else prefix ++ slash in
  let opts := mkIterOptions prefix (UpperBound prefix) in
  match NewIterWithContext (db d) opts with
  | (db1, inr err) => (with_db db1 d, inr err)
  | (db1, inl iter) =>
      let d := with_db db1 d in
      let first :=
        let '(db2, iter) := iter_First (db d) iter in
        runQuery (with_db db2 d) q iter in
      let last :=
        let '(db2, iter) := iter_Last (db d) iter in
        runQuery (with_db db2 d) q iter in
      match orders with
      | [] => first
      | [o] =>
          match o with
          | OrderByKey | OrderByKeyPtr => first
          | OrderByKeyDescending | OrderByKeyDescendingPtr => last
          | OrderOther _ =>
              let '(d, r) := inefficientOrderQuery self d q None in
              (with_db (iter_Close (db d) iter) d, r)
          end
      | _ =>
          match baseOrderLoop orders None orders with
          | inr err => (d, inr err)
          | inl baseOrder =>
              let '(d, r) := inefficientOrderQuery self d q baseOrder in
              (with_db (iter_Close (db d) iter) d, r)
          end
      end
  end.

(** What stands for the call that is never made. *)
Definition unreachable (d : Datastore) (q : query.Query)
  : Datastore * (Results + Err) := (d, inr (ErrEngine 0)).

(** [Query].  The query that [inefficientOrderQuery] passes on has no
    order or one key order, so the recursion is one call deep; below
    that no call is made ([Query_unfold] shows the equation of the
    source).  The context argument of the source only travels to the
    engine; in its place stands the consumer of the results, against
    which the goroutine is run (in the fallback, the goroutine of the
    base query). *)
Definition Query : Datastore -> query.Query -> Datastore * (Results + Err) :=
  QueryF (QueryF unreachable).

End Planner.

(** ** [Query] at its return

    [Query] above is a call together with the goroutine that it starts,
    run to its end, which is what decides the events of a stream.  The
    call itself returns as soon as the goroutine is registered and
    started: [d.wg.Add(1)], then [query.ResultsWithProcess], then
    [return results, nil].  What the call alone has done by then is
    embedded here, from the same lines: the results it hands back are a
    handle on the goroutine that is still to run, the cursor of the
    goroutine is open and the wait group counts it. *)

(** What a call of [Query] hands back: complete results, results fed
    by a goroutine over a cursor, or the library's in-memory evaluation
    of such results. *)
Inductive Handle :=
| Complete (res : Results)
| Process (q : query.Query) (iter : Iterator)
| Applied (naiveQuery q : query.Query) (h : Handle).

Section AtReturn.

Context `{GoDatastore}.

(** [Query] from the check [if !iter.Valid()] to its return. *)
Definition startQuery (d : Datastore) (q : query.Query) (iter : Iterator)
  : Datastore * (Handle + Err) :=
  if negb (iter_Valid iter) then
    (with_db (iter_Close (db d) iter) d, inl (Complete (ResultsWithEntries q [])))
  else
    let d := wg_Add 1 d in
    (d, inl (Process q iter)).

(** [inefficientOrderQuery] to its return, with [d.Query] as [self]. *)
Definition inefficientOrderQuery_call
           (self : Datastore -> query.Query -> Datastore * (Handle + Err))
           (d : Datastore) (q : query.Query) (baseOrder : option Order)
  : Datastore * (Handle + Err) :=
  let baseQuery := q in
  let baseQuery := with_Limit 0 baseQuery in
  let baseQuery := with_Offset 0 baseQuery in
  let baseQuery := with_Orders [] baseQuery in
  let baseQuery :=
    match baseOrder with
    | Some o => with_Orders [o] baseQuery
    | None => baseQuery
    end in
  match self d baseQuery with
  | (d, inr err) => (d, inr err)
  | (d, inl res) =>
      let naiveQuery := q in
      let naiveQuery := with_Prefix [] naiveQuery in
      let naiveQuery := with_Filters [] naiveQuery in
      (d, inl (Applied naiveQuery q res))
  end.

(** The body of [Query] to its return.  The [defer iter.Close()] of the
    fallback runs when [Query] returns, which is when
    [inefficientOrderQuery] has returned: before the goroutine of the
    base query has run. *)
Definition Query_callF
           (self : Datastore -> query.Query -> Datastore * (Handle + Err))
           (d : Datastore) (q : query.Query) : Datastore * (Handle + Err) :=
  let prefix := NewKey_String (Prefix q) in
  let orders := Orders q in
  let prefix := if decide (prefix = slash) then prefix else prefix ++ slash in
  let opts := mkIterOptions prefix (UpperBound prefix) in
  match NewIterWithContext (db d) opts with
  | (db1, inr err) => (with_db db1 d, inr err)
  | (db1, inl iter) =>
      let d := with_db db1 d in
      let first :=
        let '(db2, iter) := iter_First (db d) iter in
        startQuery (with_db db2 d) q iter in
      let last :=
        let '(db2, iter) := iter_Last (db d) iter in
        startQuery (with_db db2 d) q iter in
      match orders with
      | [] => first
      | [o] =>
          match o with
          | OrderByKey | OrderByKeyPtr => first
          | OrderByKeyDescending | OrderByKeyDescendingPtr => last
          | OrderOther _ =>
              let '(d, r) := inefficientOrderQuery_call self d q None in
              (with_db (iter_Close (db d) iter) d, r)
          end
      | _ =>
          match baseOrderLoop orders None orders with
          | inr err => (d, inr err)
          | inl baseOrder =>
              let '(d, r) := inefficientOrderQuery_call self d q baseOrder in
              (with_db (iter_Close (db d) iter) d, r)
          end
      end
  end.

Definition unreachable_call (d : Datastore) (q : query.Query)
  : Datastore * (Handle + Err) := (d, inr (ErrEngine 0)).

(** A call of [Query], to its return; the recursion is one call deep,
    as for [Query]. *)
Definition Query_call : Datastore -> query.Query -> Datastore * (Handle + Err) :=
  Query_callF (Query_callF unreachable_call).

(** The function that [Query] gives to [query.ResultsWithProcess], run
    against a consumer in the state [d] of the datastore: the two
    loops, then the deferred calls, which swallow the interrupt, close
    the cursor and leave the wait group. *)
Definition goroutine (consumer : Consumer) (d : Datastore)
           (q : query.Query) (iter : Iterator) : Datastore * Results :=
  let '(_, ch) :=
    streamer consumer (Offset q) (Limit q) (Filters q)
             (KeysOnly q) (ReturnsSizes q) (ahead iter) (mkChan [] 0) in
  let d := with_db (iter_Close (db d) iter) d in
  let d := wg_Done d in
  (d, mkResults q (delivered ch)).

(** The results behind a handle once its goroutine, if it has one, has
    run to its end against the consumer. *)
Fixpoint finish (consumer : Consumer) (h : Handle) (d : Datastore)
  : Datastore * Results :=
  match h with
  | Complete res => (d, res)
  | Process q iter => goroutine consumer d q iter
  | Applied naiveQuery q h' =>
      let '(d, res) := finish consumer h' d in
      (d, NaiveQueryApply naiveQuery (ResultsReplaceQuery res q))
  end.

End AtReturn.

(** The cursor of the goroutine behind a handle, if there is one. *)
Fixpoint streaming_cursor (h : Handle) : option nat :=
  match h with
  | Complete _ => None
  | Process _ iter => Some (iid iter)
  | Applied _ _ h' => streaming_cursor h'
  end.

(** ** The batch writer *)

Inductive BatchOp :=
| OpSet (key value : bytes)
| OpDelete (key : bytes).

(** Modelled from the spec: [pebble.Batch], the engine's batch, whose
    code is not part of the source: the operations in the order they
    were added, and the error, if any, with which the engine refuses an
    addition. *)
Record PebbleBatch := mkPebbleBatch {
  ops : list BatchOp;
  refusal : option Err
}.

Definition db_NewBatch (x : DB) : PebbleBatch := mkPebbleBatch [] (writeErr x).

Definition batch_Set (b : PebbleBatch) (key value : bytes)
  : PebbleBatch * option Err :=
  match refusal b with
  | Some err => (b, Some err)
  | None => (mkPebbleBatch (ops b ++ [OpSet key value]) (refusal b), None)
  end.

Definition batch_Delete (b : PebbleBatch) (key : bytes)
  : PebbleBatch * option Err :=
  match refusal b with
  | Some err => (b, Some err)
  | None => (mkPebbleBatch (ops b ++ [OpDelete key]) (refusal b), None)
  end.

Definition apply_op (cs : list Cell) (op : BatchOp) : list Cell :=
  match op with
  | OpSet key value => cells_set key value cs
  | OpDelete key => cells_delete key cs
  end.

(** Modelled from the spec: [Batch.Commit] of the engine, whose code
    is not part of the source.  It applies all operations, in the order
    they were added (the later operation on a key wins), or none. *)
Definition batch_Commit (x : DB) (b : PebbleBatch) : DB * option Err :=
  match writeErr x with
  | Some err => (x, Some err)
  | None => (with_cells (foldl apply_op (cells x) (ops b)) x, None)
  end.

(** [Batch], the datastore's wrapper. *)
Record Batch := mkBatch { batch : PebbleBatch }.

Definition Datastore_Batch (d : Datastore) : Batch * option Err :=
  (mkBatch (db_NewBatch (db d)), None).

Definition Batch_Put (b : Batch) (key value : bytes) : Batch * option Err :=
  match batch_Set (batch b) key value with
  | (pb, Some err) =>
      (mkBatch pb, Some (ErrWrap "pebble error during set within batch" err))
  | (pb, None) => (mkBatch pb, None)
  end.

Definition Batch_Delete (b : Batch) (key : bytes) : Batch * option Err :=
  match batch_Delete (batch b) key with
  | (pb, Some err) =>
      (mkBatch pb, Some (ErrWrap "pebble error during delete within batch" err))
  | (pb, None) => (mkBatch pb, None)
  end.

Definition Batch_Commit (d : Datastore) (b : Batch) : Datastore * option Err :=
  match batch_Commit (db d) (batch b) with
  | (db', err) => (with_db db' d, err)
  end.

(** ** The close protocol *)









(** A datastore as [NewDatastore] returns it, over any engine state
    that has not been closed. *)
Definition NewDatastore (x : DB) : Datastore := mkDatastore x 0 false 0.




(** ** A reference instance of the go-datastore functions

    [Query] is verified for every instance of [GoDatastore].  This one
    serves to run it on examples: keys get a leading slash, and the
    in-memory evaluation filters, sorts (insertion sort, ties by key),
    skips the offset and cuts at a positive limit.  It is an example
    of the interface, not an embedding of the library. *)
Module Reference.

Definition cleanKey (s : bytes) : bytes :=
  match s with
  | "/"%byte :: _ => s
  | _ => "/"%byte :: s
  end.

Definition sign (c : comparison) : Z :=
  match c with Lt => -1 | Eq => 0 | Gt => 1 end.

Definition order_compare (o : Order) (a b : Entry) : Z :=
  match o with
  | OrderByKey | OrderByKeyPtr => sign (Bytes.compare (Key a) (Key b))
  | OrderByKeyDescending | OrderByKeyDescendingPtr =>
      sign (Bytes.compare (Key b) (Key a))
  | OrderOther cmp => cmp a b
  end.

Fixpoint less (os : list Order) (a b : Entry) : bool :=
  match os with
  | [] => sign (Bytes.compare (Key a) (Key b)) <? 0
  | o :: os' =>
      let c := order_compare o a b in
      if c <? 0 then true else if 0 <? c then false else less os' a b
  end.

Fixpoint insert (os : list Order) (e : Entry) (l : list Entry) : list Entry :=
  match l with
  | [] => [e]
  | x :: l' => if less os e x then e :: x :: l' else x :: insert os e l'
  end.

Definition sort (os : list Order) (l : list Entry) : list Entry :=
  foldr (insert os) [] l.

Definition naiveApply (q : query.Query) (r : Results) : Results :=
  let es := entries_of (REvents r) in
  let es := filter (fun e => Is_true (forallb (fun f : Filter => f e) (Filters q))) es in
  let es := match Orders q with [] => es | os => sort os es end in
  let es := drop (Z.to_nat (Offset q)) es in
  let es := if Limit q <=? 0 then es else take (Z.to_nat (Limit q)) es in
  mkResults (RQuery r)
            (map ResultOfError (errors_of (REvents r)) ++ map ResultOfEntry es).

#[global] Instance reference : GoDatastore :=
  {| NewKey_String := cleanKey;
     NaiveQueryApply := naiveApply |}.

End Reference.

(** ** Notions used in the statements *)

(** The upper bound by recursion from the front of the prefix, the form
    in which it is compared with keys. *)
Fixpoint upper_from_front (P : bytes) : option bytes :=
  match P with
  | [] => None
  | b :: P' =>
      match upper_from_front P' with
      | Some u => Some (b :: u)
      | None => if Byte.eqb b xff then None else Some [byte_inc b]
      end
  end.

(** The orders for which [Query] iterates natively. *)
Definition native (os : list Order) : bool :=
  match os with
  | [] => true
  | [o] => isKeyOrder o
  | _ => false
  end.

(** What a query asks of a cell, in the words of the specification: the
    entry made of it, if it can be made and passes every filter. *)
Definition candidate (filters : list Filter) (keysOnly returnSizes : bool)
           (c : Cell) : option Entry :=
  match createEntry keysOnly returnSizes c with
  | inl e => if forallb (fun f : Filter => f e) filters then Some e else None
  | inr _ => None
  end.

Definition candidates (filters : list Filter) (keysOnly returnSizes : bool)
           (cs : list Cell) : list Entry :=
  omap (candidate filters keysOnly returnSizes) cs.

(** A cell as a cursor without errors would show it. *)
Definition clear_error (c : Cell) : Cell := mkCell (ckey c) (cvalue c) None.

(** The consumer that receives every event. *)
Definition receiving (consumer : Consumer) : Prop :=
  forall n, consumer n = Received.

(** [outCh] after one more delivery. *)
Definition deliver (r : Result) (ch : Chan) : Chan :=
  mkChan (delivered ch ++ [r]) (S (attempts ch)).

(** Whether the planner travels the cursor backward. *)
Definition descending (os : list Order) : bool :=
  match os with
  | [o] => isKeyDescending o
  | _ => false
  end.

(** The bounds that [Query] gives the cursor, the cells within them,
    and the order in which a native query is shown them. *)
Definition scan_options `{GoDatastore} (q : query.Query) : IterOptions :=
  let prefix := NewKey_String (Prefix q) in
  let prefix := if decide (prefix = slash) then prefix else prefix ++ slash in
  mkIterOptions prefix (UpperBound prefix).

Definition scanned `{GoDatastore} (x : DB) (q : query.Query) : list Cell :=
  let opts := scan_options q in
  filter (fun c => Is_true (in_rangeb (LowerBound opts) (UpperBoundOpt opts) (ckey c)))
         (cells x).

Definition shown `{GoDatastore} (x : DB) (q : query.Query) : list Cell :=
  if descending (Orders q) then reverse (scanned x q) else scanned x q.

(** The events of a result, or the error in its place. *)
Definition events_of (r : Results + Err) : list Result + Err :=
  match r with
  | inl res => inl (REvents res)
  | inr err => inr err
  end.








(** The planner's decision, as the table of the specification has it. *)
Inductive Plan :=
| PlanNative (backward : bool)
| PlanFallback (baseOrder : option Order)
| PlanError (err : Err).

Definition plan (orders : list Order) : Plan :=
  match orders with
  | [] => PlanNative false
  | [o] =>
      if isKeyAscending o then PlanNative false
      else if isKeyDescending o then PlanNative true
      else PlanFallback None
  | _ =>
      match baseOrderLoop orders None orders with
      | inl baseOrder => PlanFallback baseOrder
      | inr err => PlanError err
      end
  end.

(** The two queries that [inefficientOrderQuery] derives. *)
Definition baseQuery_of (q : query.Query) (baseOrder : option Order) : query.Query :=
  let b := with_Orders [] (with_Offset 0 (with_Limit 0 q)) in
  match baseOrder with
  | Some o => with_Orders [o] b
  | None => b
  end.

Definition naiveQuery_of (q : query.Query) : query.Query :=
  with_Filters [] (with_Prefix [] q).

(** The state of the datastore after a call that logged [evs] and
    opened [n] cursors. *)
Definition after_cursors (d : Datastore) (evs : list IterEvent) (n : nat)
  : Datastore :=
  mkDatastore
    (mkDB (cells (db d)) (newIterErr (db d)) (writeErr (db d))
          (iterlog (db d) ++ evs) (n + nextIter (db d))
          (flushes (db d)) (closes (db d)))
    (status d) (closing d) (wg d).

(** How often a cursor was opened and closed in a log. *)
Definition opened (id : nat) (evs : list IterEvent) : nat :=
  length (filter (fun ev => ev = EvNewIter id) evs).
Definition released (id : nat) (evs : list IterEvent) : nat :=
  length (filter (fun ev => ev = EvClose id) evs).
Definition positioned (evs : list IterEvent) : bool :=
  existsb (fun ev => match ev with EvFirst _ | EvLast _ => true | _ => false end) evs.

(** The goroutine of a query over the cells [cs], and the events it
    delivers from a fresh channel. *)
Definition stream_of (consumer : Consumer) (q : query.Query)
           (cs : list Cell) : Stream unit :=
  streamer consumer (Offset q) (Limit q) (Filters q)
           (KeysOnly q) (ReturnsSizes q) cs.

Definition events_from (consumer : Consumer) (q : query.Query)
           (cs : list Cell) : list Result :=
  delivered (snd (stream_of consumer q cs (mkChan [] 0))).

(** Modelled from the spec: how the engine's cursor fails; the code of
    [pebble.Iterator] is not part of the source.  A cursor that meets an
    error while it moves stops there: from then on [Valid] is false and
    [Error] returns the error, so that [Error] is nil wherever [Valid]
    is true.  [travel] are the positions that a cursor is to visit, in
    order, the [cerror] of a position being the error met on getting to
    it.  [valid_positions] are the positions at which [Valid] holds,
    which is what the loops of [Query] get to see of the cursor, and
    [failure] is what [Error] returns behind them. *)
Fixpoint valid_positions (travel : list Cell) : list Cell :=
  match travel with
  | [] => []
  | c :: rest =>
      match cerror c with
      | Some _ => []
      | None => c :: valid_positions rest
      end
  end.

Fixpoint failure (travel : list Cell) : option Err :=
  match travel with
  | [] => None
  | c :: rest =>
      match cerror c with
      | Some err => Some err
      | None => failure rest
      end
  end.

(** What [Query] needs of the library for a negative limit.  The
    in-memory evaluation of go-datastore, whose code is not part of the
    source, applies a limit only if it is not zero and then counts it
    down to zero, where a negative limit never arrives: the events it
    produces are those it produces without a limit.  They do not depend
    on the query that the results it is given carry. *)
Definition negative_limit_is_no_limit `{GoDatastore} : Prop :=
  forall (naiveQuery q1 q2 : query.Query) (evs : list Result),
    Limit naiveQuery < 0 ->
    REvents (NaiveQueryApply naiveQuery (mkResults q1 evs)) =
    REvents (NaiveQueryApply (with_Limit 0 naiveQuery) (mkResults q2 evs)).

(** An event that carries an entry, or the error that follows an
    interrupted send. *)
Definition entry_or_close_notice (r : Result) : Prop :=
  RError r = None \/ r = ResultOfError ErrCloseRequested.

(** What offset and limit leave of a sequence of entries. *)
Definition window (q : query.Query) (es : list Entry) : list Entry :=
  if Limit q <=? 0 then drop (Z.to_nat (Offset q)) es
  else take (Z.to_nat (Limit q)) (drop (Z.to_nat (Offset q)) es).

(** The entries that a query asks of the cells [cs]. *)
Definition wanted (q : query.Query) (cs : list Cell) : list Entry :=
  candidates (Filters q) (KeysOnly q) (ReturnsSizes q) cs.

(** ** Notions used in the further properties *)

(** A list of operations, added to a batch one by one with [Batch.Put]
    and [Batch.Delete], up to the first error. *)
Fixpoint Batch_add (b : Batch) (l : list BatchOp) : Batch * option Err :=
  match l with
  | [] => (b, None)
  | op :: l' =>
      let step :=
        match op with
        | OpSet key value => Batch_Put b key value
        | OpDelete key => Batch_Delete b key
        end in
      match step with
      | (b', Some err) => (b', Some err)
      | (b', None) => Batch_add b' l'
      end
  end.

(** The same operations done on the datastore one by one with [Put]
    and [Delete], up to the first error. *)
Fixpoint write_each (d : Datastore) (l : list BatchOp) : Datastore * option Err :=
  match l with
  | [] => (d, None)
  | op :: l' =>
      let step :=
        match op with
        | OpSet key value => Put d key value
        | OpDelete key => Delete d key
        end in
      match step with
      | (d', Some err) => (d', Some err)
      | (d', None) => write_each d' l'
      end
  end.

(** How many cursors a log opens. *)
Definition cursors_opened (evs : list IterEvent) : nat :=
  length (filter (fun ev => Is_true match ev with
                                    | EvNewIter _ => true
                                    | _ => false
                                    end) evs).

(** The one event that can follow an interrupted send: the close
    error, if the consumer still takes it. *)
Definition close_notice (notified : bool) : list Result :=
  if notified then [ResultOfError ErrCloseRequested] else [].

(** The stream [out] is the stream [all] cut short: some of its events,
    not all, from the first on, and then the close error or nothing. *)
Definition cut_short (out all : list Result) : Prop :=
  exists pre notified r more,
    out = pre ++ close_notice notified /\ all = pre ++ r :: more.











Definition op_key (op : BatchOp) : bytes :=
  match op with
  | OpSet key _ => key
  | OpDelete key => key
  end.

(** The last operation on a key in a list of operations. *)
Definition last_op_on (key : bytes) (l : list BatchOp) : option BatchOp :=
  last (filter (fun op => op_key op = key) l).

(** ** Sample data

    The dataset of the specification's example, a query for the prefix
    [/a], and the travel of a cursor that fails on its way to the
    second key. *)
Module Sample.

Import Reference.

Definition bs (s : string) : bytes := list_byte_of_string s.

Definition emptyDB : DB := mkDB [] None None [] 0 0 0.

Definition sampleDB : DB :=
  with_cells
    [mkCell (bs "/a/1") (inl (bs "x")) None;
     mkCell (bs "/a/2") (inl (bs "y")) None;
     mkCell (bs "/b/1") (inl (bs "z")) None]
    emptyDB.

Definition brokenTravel : list Cell :=
  [mkCell (bs "/a/1") (inl (bs "x")) None;
   mkCell (bs "/a/2") (inl (bs "y")) (Some (ErrEngine 7));
   mkCell (bs "/a/3") (inl (bs "z")) None].

Definition unreadableDB : DB :=
  with_cells
    [mkCell (bs "/a/1") (inr (ErrEngine 9)) None;
     mkCell (bs "/a/2") (inl (bs "y")) None;
     mkCell (bs "/b/1") (inl (bs "z")) None]
    emptyDB.

Definition sampleQuery : query.Query :=
  mkQuery (bs "/a") [] [] 0 0 false false false.

Definition always : Consumer := fun _ => Received.

Definition byValueSize : Order :=
  OrderOther (fun a b => Size a - Size b).

Definition entry (k v : string) : Entry := mkEntry (bs k) (Some (bs v)) 0.

End Sample.

(** * Theorems *)

(** ** Bytes and their order *)

Module BytesFacts.

Lemma to_N_inj (x y : byte) : Byte.to_N x = Byte.to_N y -> x = y.
Proof.
  intros E. pose proof (Byte.of_to_N x) as Hx.
  rewrite E, Byte.of_to_N in Hx. congruence.
Qed.

Lemma eqb_eq (x y : byte) : Byte.eqb x y = true <-> x = y.
Proof.
  split; [apply Byte.byte_dec_bl | apply Byte.byte_dec_lb].
Qed.

Lemma eqb_neq (x y : byte) : Byte.eqb x y = false <-> x <> y.
Proof.
  split.
  - apply Byte.eqb_false.
  - intros Hne. destruct (Byte.eqb x y) eqn:E; [|done].
    apply eqb_eq in E. done.
Qed.

Lemma to_N_xff (b : byte) : Byte.to_N b = 255%N <-> b = xff.
Proof.
  split; [|by intros ->].
  intros E. apply to_N_inj. by rewrite E.
Qed.

Lemma to_N_byte_inc (b : byte) :
  b <> xff -> Byte.to_N (byte_inc b) = (Byte.to_N b + 1)%N.
Proof.
  intros Hne. unfold byte_inc.
  pose proof (Byte.to_N_bounded b) as Hb.
  assert (Byte.to_N b <> 255%N) as Hn by (by rewrite to_N_xff).
  rewrite N.mod_small by lia.
  destruct (Byte.of_N (Byte.to_N b + 1)) as [c|] eqn:E.
  - by apply Byte.to_of_N.
  - apply Byte.of_N_None_iff in E. lia.
Qed.

Lemma compare_refl (a : bytes) : Bytes.compare a a = Eq.
Proof.
  induction a as [|x a IH]; [done|]. simpl. by rewrite N.compare_refl.
Qed.

Lemma compare_eq (a b : bytes) : Bytes.compare a b = Eq <-> a = b.
Proof.
  split; [|intros ->; apply compare_refl].
  revert b. induction a as [|x a IH]; intros [|y b]; simpl; try done.
  destruct (N.compare_spec (Byte.to_N x) (Byte.to_N y)) as [E|E|E]; try done.
  intros Hc. apply to_N_inj in E. apply IH in Hc. congruence.
Qed.

Lemma HasPrefix_app (k p : bytes) :
  HasPrefix k p = true <-> exists s, k = p ++ s.
Proof.
  revert k. induction p as [|y p IH]; intros k; simpl.
  - split; [eauto | done].
  - destruct k as [|x k].
    + split; [done | by intros [s Hs]].
    + rewrite andb_true_iff, eqb_eq, IH. split.
      * intros [-> [s ->]]. eauto.
      * intros [s Hs]. injection Hs as -> ->. eauto.
Qed.

End BytesFacts.

(** ** The range bounds *)

Module BoundFacts.

Import BytesFacts.

Lemma upper_from_front_snoc (l : bytes) (b : byte) :
  upper_from_front (l ++ [b]) =
  if Byte.eqb b xff then upper_from_front l else Some (l ++ [byte_inc b]).
Proof.
  induction l as [|x l IH]; simpl.
  - by destruct (Byte.eqb b xff).
  - rewrite IH. destruct (Byte.eqb b xff); [done|].
    by destruct (upper_from_front l).
Qed.

(** What [make], [copy] and the assignment to [upper[i]] build. *)
Lemma upper_slice (prefix : bytes) (i : nat) (b c : byte) :
  prefix !! i = Some b ->
  <[i := c]> (copy (make (i + 1)) prefix) = take i prefix ++ [c].
Proof.
  intros Hi. pose proof (lookup_lt_Some _ _ _ Hi) as Hlt.
  unfold copy, make. rewrite length_replicate.
  replace (Nat.min (i + 1) (length prefix)) with (S i) by lia.
  rewrite drop_replicate.
  replace (i + 1 - S i)%nat with 0%nat by lia. simpl. rewrite app_nil_r.
  rewrite (take_S_r _ _ _ Hi).
  rewrite insert_app_r_alt by (rewrite length_take; lia).
  rewrite length_take. replace (i - i `min` length prefix)%nat with 0%nat by lia.
  done.
Qed.

Lemma upperBoundLoop_front (prefix : bytes) (n : nat) :
  (n <= length prefix)%nat ->
  upperBoundLoop prefix n = upper_from_front (take n prefix).
Proof.
  induction n as [|i IH]; intros Hn; simpl.
  - done.
  - destruct (lookup_lt_is_Some_2 prefix i) as [b Hb]; [lia|].
    rewrite Hb, (take_S_r _ _ _ Hb), upper_from_front_snoc.
    destruct (Byte.eqb b xff).
    + apply IH. lia.
    + by rewrite (upper_slice _ _ b).
Qed.

Lemma UpperBound_front (P : bytes) : UpperBound P = upper_from_front P.
Proof.
  unfold UpperBound. rewrite upperBoundLoop_front by lia.
  by rewrite take_ge by lia.
Qed.

Lemma upper_spec_front (P : bytes) : upper_spec P = upper_from_front P.
Proof.
  induction P as [|b l IH] using rev_ind; [done|].
  rewrite upper_from_front_snoc, <- IH. unfold upper_spec.
  rewrite reverse_snoc. simpl.
  destruct (Byte.eqb b xff); [done|]. by rewrite reverse_involutive.
Qed.

Lemma upper_from_front_None (P : bytes) :
  upper_from_front P = None <-> Forall (fun b => b = xff) P.
Proof.
  induction P as [|b P IH]; simpl.
  - split; [constructor | done].
  - rewrite Forall_cons, <- IH.
    destruct (upper_from_front P); [naive_solver|].
    destruct (Byte.eqb b xff) eqn:E.
    + apply eqb_eq in E. naive_solver.
    + apply eqb_neq in E. naive_solver.
Qed.

Lemma upper_from_front_last (pre : bytes) (b : byte) (n : nat) :
  b <> xff ->
  upper_from_front (pre ++ b :: replicate n xff) = Some (pre ++ [byte_inc b]).
Proof.
  intros Hb. induction pre as [|x pre IH]; simpl.
  - replace (upper_from_front (replicate n xff)) with (@None bytes).
    + apply eqb_neq in Hb. by rewrite Hb.
    + symmetry. apply upper_from_front_None. by apply Forall_replicate.
  - by rewrite IH.
Qed.

(** Below a prefix of maximal bytes there is nothing but its
    extensions. *)
Lemma le_all_max (P K : bytes) :
  Forall (fun b => b = xff) P ->
  (Bytes.le P K <-> HasPrefix K P = true).
Proof.
  unfold Bytes.le.
  intros HP. revert K. induction HP as [|b P -> _ IH]; intros K.
  - simpl. by destruct K.
  - destruct K as [|k K]; [done|]. cbn [Bytes.compare HasPrefix].
    rewrite andb_true_iff, eqb_eq, <- IH.
    pose proof (Byte.to_N_bounded k) as Hk.
    destruct (N.compare_spec (Byte.to_N xff) (Byte.to_N k)) as [E|E|E];
      change (Byte.to_N xff) with 255%N in E.
    + symmetry in E. apply to_N_xff in E. naive_solver.
    + lia.
    + split; [done|]. intros [-> _]. simpl in E. lia.
Qed.

Lemma range_front (P u K : bytes) :
  upper_from_front P = Some u ->
  (HasPrefix K P = true <-> Bytes.le P K /\ Bytes.lt K u).
Proof.
  unfold Bytes.le, Bytes.lt.
  revert u K. induction P as [|b P IH]; intros u K; [done|].
  cbn [upper_from_front].
  destruct (upper_from_front P) as [u'|] eqn:Hu.
  - intros [= <-].
    destruct K as [|k K]; cbn [Bytes.compare HasPrefix];
      [split; [done | by intros [? _]]|].
    rewrite andb_true_iff, eqb_eq, (IH u' K eq_refl).
    rewrite (N.compare_antisym (Byte.to_N b) (Byte.to_N k)).
    destruct (N.compare_spec (Byte.to_N b) (Byte.to_N k)) as [E|E|E];
      cbn [CompOpp].
    + apply to_N_inj in E. subst k. intuition auto.
    + split; [intros [-> _]; lia | by intros [_ ?]].
    + split; [intros [-> _]; lia | by intros [? _]].
  - destruct (Byte.eqb b xff) eqn:Eb; [done|]. apply eqb_neq in Eb.
    intros [= <-].
    destruct K as [|k K]; cbn [Bytes.compare HasPrefix];
      [split; [done | by intros [? _]]|].
    apply upper_from_front_None in Hu.
    rewrite andb_true_iff, eqb_eq, <- (le_all_max P K Hu). unfold Bytes.le.
    rewrite (to_N_byte_inc b Eb).
    destruct (N.compare_spec (Byte.to_N b) (Byte.to_N k)) as [E|E|E].
    + apply to_N_inj in E. subst k.
      destruct (N.compare_spec (Byte.to_N b) (Byte.to_N b + 1)); [lia| |lia].
      intuition auto.
    + split; [intros [-> _]; lia|]. intros [_ Hlt].
      destruct (N.compare_spec (Byte.to_N k) (Byte.to_N b + 1)); [|lia|done].
      by destruct K.
    + split; [intros [-> _]; lia | by intros [? _]].
Qed.

End BoundFacts.

(** ** The planner *)

Module PlannerFacts.

(** Once a base order is set, any further order ends the loop with
    the error. *)
Lemma baseOrderLoop_set (orders : list Order) (o : Order) (os : list Order) :
  os <> [] ->
  baseOrderLoop orders (Some o) os = inr (ErrIncompatibleOrders orders).
Proof. by destruct os. Qed.

Lemma baseOrderLoop_step (orders : list Order) (o : Order) (os : list Order) :
  baseOrderLoop orders None (o :: os) =
  baseOrderLoop orders (if isKeyOrder o then Some o else None) os.
Proof. by destruct o. Qed.

(** Orders that are not key orders leave the loop where it was. *)
Lemma baseOrderLoop_others (orders init rest : list Order) :
  Forall (fun o => isKeyOrder o = false) init ->
  baseOrderLoop orders None (init ++ rest) = baseOrderLoop orders None rest.
Proof.
  induction 1 as [|o init Ho _ IH]; [done|].
  rewrite <- app_comm_cons, baseOrderLoop_step, Ho. apply IH.
Qed.

(** A key order that is not the last order ends the loop with the
    error. *)
Lemma baseOrderLoop_early_key (orders l1 : list Order) (a : Order)
      (l2 : list Order) :
  isKeyOrder a = true -> l2 <> [] ->
  baseOrderLoop orders None (l1 ++ a :: l2) =
  inr (ErrIncompatibleOrders orders).
Proof.
  intros Ha Hl2. induction l1 as [|x l1 IH].
  - simpl app. rewrite baseOrderLoop_step, Ha. by apply baseOrderLoop_set.
  - rewrite <- app_comm_cons, baseOrderLoop_step.
    destruct (isKeyOrder x); [|done].
    apply baseOrderLoop_set. by destruct l1.
Qed.

(** The loop ends without error exactly when no order but the last is
    a key order, and the base order it finds is then the last one. *)
Lemma baseOrderLoop_last (orders init : list Order) (o : Order) :
  Forall (fun x => isKeyOrder x = false) init ->
  baseOrderLoop orders None (init ++ [o]) =
  inl (if isKeyOrder o then Some o else None).
Proof.
  intros Hinit. rewrite (baseOrderLoop_others _ _ _ Hinit).
  rewrite baseOrderLoop_step. by destruct (isKeyOrder o).
Qed.

Lemma baseOrderLoop_found (orders os : list Order) (b : option Order) (o : Order) :
  baseOrderLoop orders b os = inl (Some o) ->
  (b = Some o \/ b = None) /\ (b = None -> isKeyOrder o = true).
Proof.
  revert b. induction os as [|x os IH]; intros b; simpl.
  - intros [= ->]. split; [by left | done].
  - destruct b as [b|]; [done|]. intros Hloop. split; [by right|].
    intros _. apply IH in Hloop as [[Hb|Hb] Hk].
    + destruct x; simplify_eq; done.
    + by apply Hk.
Qed.

(** Both key orders among the orders: one of them is not the last. *)
Lemma conflicting_key_orders (orders : list Order) (a b : Order) :
  a ∈ orders -> isKeyAscending a = true ->
  b ∈ orders -> isKeyDescending b = true ->
  exists l1 x l2, orders = l1 ++ x :: l2 /\ isKeyOrder x = true /\ l2 <> [].
Proof.
  intros Ha Hasc Hb Hdesc.
  assert (a <> b) as Hne by (intros ->; destruct b; done).
  apply list_elem_of_split in Ha as (l1 & l2 & ->).
  destruct l2 as [|y l2].
  - apply elem_of_app in Hb as [Hb|Hb].
    + apply list_elem_of_split in Hb as (m1 & m2 & ->).
      exists m1, b, (m2 ++ [a]). rewrite <- app_assoc. split; [done|].
      split; [unfold isKeyOrder; by rewrite Hdesc, orb_true_r|].
      by destruct m2.
    + apply list_elem_of_singleton in Hb. done.
  - exists l1, a, (y :: l2). split; [done|].
    split; [unfold isKeyOrder; by rewrite Hasc | done].
Qed.

End PlannerFacts.

(** ** [Query] and its recursive call *)

Module QueryFacts.

Import PlannerFacts.

Section WithLibrary.

Context `{GoDatastore}.
Variable consumer : Consumer.

Local Abbreviation Self :=
  (Datastore -> query.Query -> Datastore * (Results + Err)).

Lemma QueryF_native (s1 s2 : Self) (d : Datastore) (q : query.Query) :
  native (Orders q) = true ->
  QueryF consumer s1 d q = QueryF consumer s2 d q.
Proof.
  intros Hn. unfold QueryF.
  destruct (NewIterWithContext _ _) as [db1 [iter|err]]; [|done].
  destruct (Orders q) as [|o [|o' os]]; [done| |done].
  by destruct o.
Qed.

Lemma inefficientOrderQuery_ext (s1 s2 : Self) (d : Datastore)
      (q : query.Query) (base : option Order) :
  (forall d' q', native (Orders q') = true -> s1 d' q' = s2 d' q') ->
  (forall o, base = Some o -> isKeyOrder o = true) ->
  inefficientOrderQuery s1 d q base = inefficientOrderQuery s2 d q base.
Proof.
  intros Hs Hb. unfold inefficientOrderQuery.
  rewrite Hs; [done|].
  destruct base as [o|]; simpl; [by apply Hb | done].
Qed.

Lemma QueryF_ext (s1 s2 : Self) (d : Datastore) (q : query.Query) :
  (forall d' q', native (Orders q') = true -> s1 d' q' = s2 d' q') ->
  QueryF consumer s1 d q = QueryF consumer s2 d q.
Proof.
  intros Hs. unfold QueryF.
  destruct (NewIterWithContext _ _) as [db1 [iter|err]]; [|done].
  destruct (Orders q) as [|o [|o' os]] eqn:Ho; [done| |].
  - destruct o; try done.
    by rewrite (inefficientOrderQuery_ext s1 s2).
  - destruct (baseOrderLoop _ _ _) as [base|err] eqn:Hloop; [|done].
    rewrite (inefficientOrderQuery_ext s1 s2); [done|done|].
    intros o1 ->. apply baseOrderLoop_found in Hloop as [_ Hk]. by apply Hk.
Qed.

(** The equation of the source: [Query] is its body, with [Query]
    itself at the recursive call. *)
Lemma Query_unfold (d : Datastore) (q : query.Query) :
  Query consumer d q = QueryF consumer (Query consumer) d q.
Proof.
  unfold Query. apply QueryF_ext.
  intros d' q' Hn. by apply QueryF_native.
Qed.

(** What a native query does, in one equation: one cursor, opened,
    positioned and closed; the wait group left as it was; the
    events those of the goroutine over the cells shown. *)
Lemma Query_native_run (d : Datastore) (q : query.Query) :
  native (Orders q) = true -> newIterErr (db d) = None ->
  Query consumer d q =
  let id := nextIter (db d) in
  let ch :=
    snd (streamer consumer (Offset q) (Limit q) (Filters q)
                  (KeysOnly q) (ReturnsSizes q) (shown (db d) q)
                  (mkChan [] 0)) in
  (mkDatastore
     (mkDB (cells (db d)) None (writeErr (db d))
           (iterlog (db d) ++
            [EvNewIter id;
             if descending (Orders q) then EvLast id else EvFirst id;
             EvClose id])
           (S id) (flushes (db d)) (closes (db d)))
     (status d) (closing d) (wg d),
   inl (mkResults q (delivered ch))).
Proof.
  intros Hn Herr. unfold Query, QueryF, NewIterWithContext.
  rewrite Herr. unfold shown, scanned, scan_options. simpl.
  set (cs := filter _ (cells (db d))).
  assert (forall (back : bool),
    runQuery consumer
      (with_db
         (log_event ((if back then EvLast else EvFirst) (nextIter (db d)))
            (mkDB (cells (db d)) None (writeErr (db d))
                  (iterlog (db d) ++ [EvNewIter (nextIter (db d))])
                  (S (nextIter (db d))) (flushes (db d)) (closes (db d))))
         (with_db
            (mkDB (cells (db d)) None (writeErr (db d))
                  (iterlog (db d) ++ [EvNewIter (nextIter (db d))])
                  (S (nextIter (db d))) (flushes (db d)) (closes (db d))) d))
      q (mkIterator (nextIter (db d)) cs (if back then reverse cs else cs)) =
    (mkDatastore
       (mkDB (cells (db d)) None (writeErr (db d))
             (iterlog (db d) ++
              [EvNewIter (nextIter (db d));
               (if back then EvLast else EvFirst) (nextIter (db d));
               EvClose (nextIter (db d))])
             (S (nextIter (db d))) (flushes (db d)) (closes (db d)))
       (status d) (closing d) (wg d),
     inl (mkResults q (delivered (snd
       (streamer consumer (Offset q) (Limit q) (Filters q)
                 (KeysOnly q) (ReturnsSizes q)
                 (if back then reverse cs else cs) (mkChan [] 0)))))))
    as Hrun.
  { intros back. unfold runQuery, iter_Valid, iter_Close, log_event, with_db.
    simpl. set (shown_cs := if back then reverse cs else cs).
    destruct shown_cs as [|c0 rest] eqn:Hshown.
    - simpl. rewrite <- !app_assoc. done.
    - simpl negb. cbv iota.
      destruct (streamer _ _ _ _ _ _ _ _) as [o ch]. simpl.
      rewrite <- !app_assoc. simpl. unfold wg_Done, wg_Add. simpl.
      do 2 f_equal. lia. }
  destruct (Orders q) as [|o [|o' os]]; [|destruct o|]; try done.
  - apply (Hrun false).
  - apply (Hrun false).
  - apply (Hrun false).
  - pose proof (Hrun true) as Hb. simpl in Hb. rewrite Hb. done.
  - pose proof (Hrun true) as Hb. simpl in Hb. rewrite Hb. done.
Qed.

End WithLibrary.

End QueryFacts.

(** ** The streamer *)

Module StreamerFacts.

Lemma entries_of_app (l1 l2 : list Result) :
  entries_of (l1 ++ l2) = entries_of l1 ++ entries_of l2.
Proof. apply omap_app. Qed.

Lemma errors_of_app (l1 l2 : list Result) :
  errors_of (l1 ++ l2) = errors_of l1 ++ errors_of l2.
Proof. apply omap_app. Qed.

Section Loops.

Variable consumer : Consumer.
Variables (offset limit : Z) (filters : list Filter).
Variables (keysOnly returnSizes : bool).

Local Abbreviation skip := (skipLoop consumer offset filters keysOnly returnSizes).
Local Abbreviation emit := (emitLoop consumer limit filters keysOnly returnSizes).
Local Abbreviation cands := (candidates filters keysOnly returnSizes).

(** The test of the two loops is the test of all filters. *)
Lemma filterFn_forallb (fs : list Filter) (e : Entry) :
  filterFn fs e = forallb (fun f : Filter => f e) fs.
Proof.
  induction fs as [|f fs IH]; [done|]. simpl. rewrite IH.
  by destruct (f e).
Qed.

Lemma rejected_forallb (e : Entry) :
  doFilter filters && negb (filterFn filters e) =
  negb (forallb (fun f : Filter => f e) filters).
Proof.
  rewrite filterFn_forallb. unfold doFilter.
  destruct filters as [|f fs]; [done|].
  replace (0 <? Z.of_nat (length (f :: fs))) with true; [done|].
  symmetry. apply Z.ltb_lt. simpl length. lia.
Qed.

(** The three ways a loop body ends, by the candidate of the cell. *)
Lemma candidate_cases (c : Cell) :
  (exists err, createEntry keysOnly returnSizes c = inr err /\
               candidate filters keysOnly returnSizes c = None) \/
  (exists e, createEntry keysOnly returnSizes c = inl e /\
             doFilter filters && negb (filterFn filters e) = true /\
             candidate filters keysOnly returnSizes c = None) \/
  (exists e, createEntry keysOnly returnSizes c = inl e /\
             doFilter filters && negb (filterFn filters e) = false /\
             candidate filters keysOnly returnSizes c = Some e).
Proof.
  unfold candidate.
  destruct (createEntry keysOnly returnSizes c) as [e|err]; [|eauto].
  right. pose proof (rejected_forallb e) as Hr.
  destruct (forallb _ filters); [right | left]; eauto.
Qed.

Lemma candidates_cons (c : Cell) (cs : list Cell) :
  cands (c :: cs) =
  match candidate filters keysOnly returnSizes c with
  | Some e => e :: cands cs
  | None => cands cs
  end.
Proof. done. Qed.

Lemma skip_cons (skipped : Z) (c : Cell) (rest : list Cell) (ch : Chan) :
  skipLoop consumer offset filters keysOnly returnSizes skipped (c :: rest) ch =
  if skipped <? offset then
    match reportError consumer c ch with
    | (Some _, ch') =>
        match createEntry keysOnly returnSizes c with
        | inr _ => skip skipped rest ch'
        | inl e =>
            if doFilter filters && negb (filterFn filters e)
            then skip skipped rest ch'
            else skip (skipped + 1) rest ch'
        end
    | (None, ch') => (None, ch')
    end
  else (Some (c :: rest), ch).
Proof.
  simpl. destruct (skipped <? offset); [|done]. unfold bind.
  destruct (reportError consumer c ch) as [[[]|] ch']; [|done].
  destruct (createEntry keysOnly returnSizes c) as [e|err]; [|done].
  by destruct (doFilter filters && negb (filterFn filters e)).
Qed.

Lemma emit_cons (sent : Z) (c : Cell) (rest : list Cell) (ch : Chan) :
  emitLoop consumer limit filters keysOnly returnSizes sent (c :: rest) ch =
  if (limit <=? 0) || (sent <? limit) then
    match reportError consumer c ch with
    | (Some _, ch') =>
        match createEntry keysOnly returnSizes c with
        | inr _ => emit sent rest ch'
        | inl entry =>
            if doFilter filters && negb (filterFn filters entry)
            then emit sent rest ch'
            else
              match sendOrInterrupt consumer (ResultOfEntry entry) ch' with
              | (Some _, ch'') => emit (sent + 1) rest ch''
              | (None, ch'') => (None, ch'')
              end
        end
    | (None, ch') => (None, ch')
    end
  else (Some tt, ch).
Proof.
  simpl. destruct ((limit <=? 0) || (sent <? limit)); [|done]. unfold bind.
  destruct (reportError consumer c ch) as [[[]|] ch']; [|done].
  destruct (createEntry keysOnly returnSizes c) as [e|err]; [|done].
  destruct (doFilter filters && negb (filterFn filters e)); [done|].
  by destruct (sendOrInterrupt consumer (ResultOfEntry e) ch') as [[[]|] ch''].
Qed.

(** *** Under a consumer that receives every event *)

Section Receiving.

Hypothesis Hrecv : receiving consumer.

Lemma send_received (r : Result) (ch : Chan) :
  sendOrInterrupt consumer r ch = (Some tt, deliver r ch).
Proof. unfold sendOrInterrupt. by rewrite Hrecv. Qed.

Lemma reportError_received (c : Cell) (ch : Chan) :
  exists ch',
    reportError consumer c ch = (Some tt, ch') /\
    entries_of (delivered ch') = entries_of (delivered ch) /\
    errors_of (delivered ch') =
      errors_of (delivered ch) ++ option_list (cerror c).
Proof.
  unfold reportError. destruct (cerror c) as [err|]; simpl.
  - rewrite send_received. eexists; split; [done|]. simpl.
    rewrite entries_of_app, errors_of_app. simpl.
    by rewrite app_nil_r.
  - exists ch. by rewrite app_nil_r.
Qed.

Lemma skip_received (cs : list Cell) (skipped : Z) (ch : Chan) :
  exists rest ch',
    skip skipped cs ch = (Some rest, ch') /\
    entries_of (delivered ch') = entries_of (delivered ch) /\
    cands rest = drop (Z.to_nat (offset - skipped)) (cands cs) /\
    errors_of (delivered ch') ++ omap cerror rest =
      errors_of (delivered ch) ++ omap cerror cs.
Proof.
  revert skipped ch. induction cs as [|c cs IH]; intros skipped ch.
  - exists [], ch. simpl. by rewrite drop_nil.
  - rewrite skip_cons. destruct (skipped <? offset) eqn:Hlt.
    + apply Z.ltb_lt in Hlt.
      destruct (reportError_received c ch) as (ch1 & -> & Hent & Herr).
      assert (forall sk, exists rest ch',
                skip sk cs ch1 = (Some rest, ch') /\
                entries_of (delivered ch') = entries_of (delivered ch) /\
                cands rest = drop (Z.to_nat (offset - sk)) (cands cs) /\
                errors_of (delivered ch') ++ omap cerror rest =
                  errors_of (delivered ch) ++ omap cerror (c :: cs))
        as Hnext.
      { intros sk. destruct (IH sk ch1) as (rest & ch' & -> & He & Hc & Hr).
        exists rest, ch'. split; [done|]. split; [congruence|].
        split; [done|]. rewrite Hr, Herr, <- app_assoc. f_equal.
        simpl. by destruct (cerror c). }
      rewrite candidates_cons.
      destruct (candidate_cases c)
        as [(err & -> & ->)|[(e & -> & -> & ->)|(e & -> & -> & ->)]].
      * apply Hnext.
      * apply Hnext.
      * destruct (Hnext (skipped + 1)) as (rest & ch' & -> & He & Hc & Hr).
        exists rest, ch'. split; [done|]. split; [done|]. split; [|done].
        rewrite Hc.
        replace (Z.to_nat (offset - skipped))
          with (S (Z.to_nat (offset - (skipped + 1)))) by lia.
        done.
    + apply Z.ltb_ge in Hlt. exists (c :: cs), ch.
      replace (Z.to_nat (offset - skipped)) with 0%nat by lia. done.
Qed.

Lemma emit_received (cs : list Cell) (sent : Z) (ch : Chan) :
  exists ch',
    emit sent cs ch = (Some tt, ch') /\
    entries_of (delivered ch') =
      entries_of (delivered ch) ++
      (if limit <=? 0 then cands cs
       else take (Z.to_nat (limit - sent)) (cands cs)) /\
    (limit <= 0 ->
     errors_of (delivered ch') = errors_of (delivered ch) ++ omap cerror cs).
Proof.
  revert sent ch. induction cs as [|c cs IH]; intros sent ch.
  - exists ch. simpl. rewrite take_nil, app_nil_r.
    destruct (limit <=? 0); by rewrite app_nil_r.
  - rewrite emit_cons. destruct ((limit <=? 0) || (sent <? limit)) eqn:Hopen.
    + destruct (reportError_received c ch) as (ch1 & -> & Hent & Herr).
      assert (forall ch2,
                entries_of (delivered ch2) = entries_of (delivered ch) ->
                errors_of (delivered ch2) = errors_of (delivered ch1) ->
                exists ch',
                  emit sent cs ch2 = (Some tt, ch') /\
                  entries_of (delivered ch') =
                    entries_of (delivered ch) ++
                    (if limit <=? 0 then cands cs
                     else take (Z.to_nat (limit - sent)) (cands cs)) /\
                  (limit <= 0 ->
                   errors_of (delivered ch') =
                     errors_of (delivered ch) ++ omap cerror (c :: cs)))
        as Hnext.
      { intros ch2 He2 Hr2.
        destruct (IH sent ch2) as (ch' & -> & He & Hr).
        exists ch'. split; [done|]. split; [congruence|].
        intros Hl. rewrite (Hr Hl), Hr2, Herr, <- app_assoc. f_equal.
        simpl. by destruct (cerror c). }
      rewrite candidates_cons.
      destruct (candidate_cases c)
        as [(err & -> & ->)|[(e & -> & -> & ->)|(e & -> & -> & ->)]].
      * by apply Hnext.
      * by apply Hnext.
      * rewrite send_received.
        destruct (IH (sent + 1) (deliver (ResultOfEntry e) ch1))
          as (ch' & -> & He & Hr).
        exists ch'. split; [done|]. split.
        -- rewrite He. simpl. rewrite entries_of_app, Hent. simpl.
           rewrite <- app_assoc. f_equal.
           destruct (limit <=? 0) eqn:Hl; [done|].
           simpl in Hopen. apply Z.ltb_lt in Hopen.
           replace (Z.to_nat (limit - sent))
             with (S (Z.to_nat (limit - (sent + 1)))) by lia.
           done.
        -- intros Hl. rewrite (Hr Hl). simpl.
           rewrite errors_of_app, Herr. simpl.
           rewrite app_nil_r, <- app_assoc. f_equal.
           by destruct (cerror c).
    + apply orb_false_iff in Hopen as [Hl Hs].
      rewrite Hl. apply Z.ltb_ge in Hs. apply Z.leb_gt in Hl.
      exists ch. split; [done|].
      replace (Z.to_nat (limit - sent)) with 0%nat by lia.
      rewrite take_0, app_nil_r. split; [done | lia].
Qed.

(** The entries that the goroutine delivers, and the errors when
    the limit does not cut the iteration short. *)
Lemma streamer_received (cs : list Cell) :
  exists ch,
    streamer consumer offset limit filters keysOnly returnSizes cs
             (mkChan [] 0) = (Some tt, ch) /\
    entries_of (delivered ch) =
      (if limit <=? 0 then drop (Z.to_nat offset) (cands cs)
       else take (Z.to_nat limit) (drop (Z.to_nat offset) (cands cs))) /\
    (limit <= 0 -> errors_of (delivered ch) = omap cerror cs).
Proof.
  unfold streamer, bind.
  destruct (skip_received cs 0 (mkChan [] 0))
    as (rest & ch1 & -> & He1 & Hc1 & Hr1).
  destruct (emit_received rest 0 ch1) as (ch & -> & He & Hr).
  exists ch. split; [done|]. rewrite Z.sub_0_r in *. split.
  - rewrite He, He1, Hc1. done.
  - intros Hl. rewrite (Hr Hl). done.
Qed.

End Receiving.

(** *** Cursor errors, for any consumer *)

(** At a cell where the cursor reports an error, a loop that is
    still running delivers the error if the consumer receives it,
    and goes on as it would without the error. *)
Lemma skip_error_step (skipped : Z) (c : Cell) (rest : list Cell)
      (ch : Chan) (err : Err) :
  cerror c = Some err -> consumer (attempts ch) = Received ->
  skipped < offset ->
  skip skipped (c :: rest) ch =
  skip skipped (clear_error c :: rest) (deliver (ResultOfError err) ch).
Proof.
  intros Herr Hrecv Hlt. rewrite !skip_cons.
  apply Z.ltb_lt in Hlt. rewrite Hlt.
  unfold reportError, sendOrInterrupt. rewrite Herr, Hrecv. done.
Qed.

Lemma emit_error_step (sent : Z) (c : Cell) (rest : list Cell)
      (ch : Chan) (err : Err) :
  cerror c = Some err -> consumer (attempts ch) = Received ->
  limit <= 0 \/ sent < limit ->
  emit sent (c :: rest) ch =
  emit sent (clear_error c :: rest) (deliver (ResultOfError err) ch).
Proof.
  intros Herr Hrecv Hopen. rewrite !emit_cons.
  replace ((limit <=? 0) || (sent <? limit)) with true
    by (symmetry; apply orb_true_iff; lia).
  unfold reportError, sendOrInterrupt. rewrite Herr, Hrecv. done.
Qed.

Lemma candidates_clear_error (cs : list Cell) :
  cands (map clear_error cs) = cands cs.
Proof.
  induction cs as [|c cs IH]; [done|].
  simpl map. rewrite !candidates_cons, IH. done.
Qed.

(** *** Cells that cannot be made into an entry, for any consumer *)

Section Unreadable.

Variables (c : Cell) (err : Err).
Hypothesis Hvalue : createEntry keysOnly returnSizes c = inr err.
Hypothesis Hquiet : cerror c = None.

Lemma emit_unreadable (l1 l2 : list Cell) (sent : Z) (ch : Chan) :
  emit sent (l1 ++ c :: l2) ch = emit sent (l1 ++ l2) ch.
Proof.
  revert sent ch. induction l1 as [|x l1 IH]; intros sent ch.
  - simpl app. rewrite emit_cons.
    unfold reportError. rewrite Hquiet, Hvalue. simpl.
    destruct ((limit <=? 0) || (sent <? limit)) eqn:Hopen; [done|].
    destruct l2 as [|y l2]; [done|]. by rewrite emit_cons, Hopen.
  - rewrite <- !app_comm_cons, !emit_cons.
    destruct ((limit <=? 0) || (sent <? limit)); [|done].
    destruct (reportError consumer x ch) as [[[]|] ch1]; [|done].
    destruct (createEntry keysOnly returnSizes x) as [e|e]; [|apply IH].
    destruct (doFilter filters && negb (filterFn filters e)); [apply IH|].
    destruct (sendOrInterrupt consumer (ResultOfEntry e) ch1)
      as [[[]|] ch2]; [apply IH | done].
Qed.

Lemma skip_emit_unreadable (l1 l2 : list Cell) (skipped : Z) (ch : Chan) :
  bind (skip skipped (l1 ++ c :: l2)) (emit 0) ch =
  bind (skip skipped (l1 ++ l2)) (emit 0) ch.
Proof.
  revert skipped ch. induction l1 as [|x l1 IH]; intros skipped ch.
  - simpl app. unfold bind at 1. rewrite skip_cons.
    unfold reportError. rewrite Hquiet, Hvalue. simpl.
    destruct (skipped <? offset) eqn:Hlt; [done|].
    rewrite (emit_unreadable [] l2). simpl app. unfold bind.
    destruct l2 as [|y l2]; [done|]. by rewrite skip_cons, Hlt.
  - rewrite <- !app_comm_cons. unfold bind in *. rewrite !skip_cons.
    destruct (skipped <? offset).
    + destruct (reportError consumer x ch) as [[[]|] ch1]; [|done].
      destruct (createEntry keysOnly returnSizes x) as [e|e]; [|apply IH].
      destruct (doFilter filters && negb (filterFn filters e)); apply IH.
    + apply (emit_unreadable (x :: l1) l2).
Qed.

End Unreadable.

End Loops.

(** *** A negative limit *)

Lemma emit_negative_limit (consumer : Consumer) (limit : Z)
      (filters : list Filter) (keysOnly returnSizes : bool)
      (cs : list Cell) (sent : Z) (ch : Chan) :
  limit < 0 ->
  emitLoop consumer limit filters keysOnly returnSizes sent cs ch =
  emitLoop consumer 0 filters keysOnly returnSizes sent cs ch.
Proof.
  intros Hneg. revert sent ch. induction cs as [|c cs IH]; intros sent ch.
  - done.
  - rewrite !emit_cons.
    replace (limit <=? 0) with true by (symmetry; apply Z.leb_le; lia).
    simpl orb.
    destruct (reportError consumer c ch) as [[[]|] ch1]; [|done].
    destruct (createEntry keysOnly returnSizes c) as [e|e]; [|apply IH].
    destruct (doFilter filters && negb (filterFn filters e)); [apply IH|].
    destruct (sendOrInterrupt consumer (ResultOfEntry e) ch1)
      as [[[]|] ch2]; [apply IH | done].
Qed.

Lemma streamer_negative_limit (consumer : Consumer) (offset limit : Z)
      (filters : list Filter) (keysOnly returnSizes : bool)
      (cs : list Cell) (ch : Chan) :
  limit < 0 ->
  streamer consumer offset limit filters keysOnly returnSizes cs ch =
  streamer consumer offset 0 filters keysOnly returnSizes cs ch.
Proof.
  intros Hneg. unfold streamer, bind.
  destruct (skipLoop _ _ _ _ _ _ _ _) as [[rest|] ch1]; [|done].
  by apply emit_negative_limit.
Qed.

End StreamerFacts.

(** ** [Query], plan by plan *)

Module RunFacts.

Import PlannerFacts QueryFacts.

Section WithLibrary.

Context `{GoDatastore}.
Variable consumer : Consumer.

Lemma plan_native (os : list Order) (back : bool) :
  plan os = PlanNative back -> native os = true /\ descending os = back.
Proof.
  destruct os as [|o [|o' os]].
  - by intros [= <-].
  - destruct o; simpl; intros Hp; simplify_eq; split; reflexivity.
  - unfold plan. by destruct (baseOrderLoop _ _ _).
Qed.

Lemma plan_fallback_base (os : list Order) (base : option Order) (o : Order) :
  plan os = PlanFallback base -> base = Some o -> isKeyOrder o = true.
Proof.
  destruct os as [|x [|o' os]]; [done| |].
  - destruct x; simpl; try done. by intros [= <-].
  - unfold plan.
    destruct (baseOrderLoop _ _ _) as [b|] eqn:Hloop; [|done].
    intros [= <-] ->. apply baseOrderLoop_found in Hloop as [_ Hk]. by apply Hk.
Qed.

Lemma baseQuery_native (q : query.Query) (base : option Order) :
  (forall o, base = Some o -> isKeyOrder o = true) ->
  native (Orders (baseQuery_of q base)) = true.
Proof. destruct base as [o|]; simpl; [intros Hk; by apply Hk | done]. Qed.

Lemma UpperBound_front_of_options (q : query.Query) :
  UpperBoundOpt (scan_options q) = UpperBound (LowerBound (scan_options q)).
Proof. done. Qed.

Lemma in_rangeb_spec (lower : bytes) (upper : option bytes) (k : bytes) :
  Is_true (in_rangeb lower upper k) <-> in_range lower upper k.
Proof.
  unfold in_rangeb, in_range, Bytes.le, Bytes.lt.
  rewrite andb_True.
  destruct (Bytes.compare lower k); (destruct upper as [u|];
    [destruct (Bytes.compare k u)|]); simpl; intuition congruence.
Qed.

(** The cursor of a query is given the cells whose key has the
    normalised prefix of the query, and no others. *)
Lemma scanned_prefix (x : DB) (q : query.Query) (c : Cell) :
  c ∈ scanned x q <->
  c ∈ cells x /\ HasPrefix (ckey c) (LowerBound (scan_options q)) = true.
Proof.
  unfold scanned. rewrite list_elem_of_filter, in_rangeb_spec.
  assert (exists pre, LowerBound (scan_options q) = pre ++ slash /\
                      UpperBoundOpt (scan_options q) =
                        Some (pre ++ [byte_inc "/"%byte]))
    as (pre & Hlow & Hup).
  { unfold scan_options. simpl.
    destruct (decide (NewKey_String (Prefix q) = slash)) as [->|_].
    - by exists [].
    - exists (NewKey_String (Prefix q)). split; [done|].
      rewrite BoundFacts.UpperBound_front.
      by apply (BoundFacts.upper_from_front_last _ "/"%byte 0). }
  rewrite Hup.
  pose proof (UpperBound_front_of_options q) as Hopt.
  rewrite Hup in Hopt. symmetry in Hopt.
  rewrite BoundFacts.UpperBound_front in Hopt.
  rewrite (BoundFacts.range_front _ _ (ckey c) Hopt). unfold in_range. tauto.
Qed.

(** The engine refuses the cursor: [Query] returns its error. *)
Lemma Query_refused (d : Datastore) (q : query.Query) (err : Err) :
  newIterErr (db d) = Some err -> Query consumer d q = (d, inr err).
Proof.
  intros Herr. unfold Query, QueryF, NewIterWithContext. rewrite Herr.
  by destruct d.
Qed.

Lemma Query_native_plan (d : Datastore) (q : query.Query) (back : bool) :
  plan (Orders q) = PlanNative back -> newIterErr (db d) = None ->
  Query consumer d q =
  let id := nextIter (db d) in
  let ch :=
    snd (streamer consumer (Offset q) (Limit q) (Filters q)
                  (KeysOnly q) (ReturnsSizes q) (shown (db d) q)
                  (mkChan [] 0)) in
  (after_cursors d
     [EvNewIter id; if back then EvLast id else EvFirst id; EvClose id] 1,
   inl (mkResults q (delivered ch))).
Proof.
  intros Hplan Herr. apply plan_native in Hplan as [Hn <-].
  rewrite (Query_native_run consumer d q Hn Herr).
  unfold after_cursors. by rewrite Herr.
Qed.

(** The planning error: the cursor is opened and nothing else is
    done with it. *)
Lemma Query_error_plan (d : Datastore) (q : query.Query) (err : Err) :
  plan (Orders q) = PlanError err -> newIterErr (db d) = None ->
  Query consumer d q =
  (after_cursors d [EvNewIter (nextIter (db d))] 1, inr err).
Proof.
  intros Hplan Herr. unfold Query, QueryF, NewIterWithContext.
  rewrite Herr. unfold after_cursors. rewrite Herr.
  destruct (Orders q) as [|o [|o' os]].
  - done.
  - by destruct o.
  - unfold plan in Hplan. cbv zeta.
    destruct (baseOrderLoop _ _ _) as [b|e]; [done|].
    by injection Hplan as ->.
Qed.

(** The fallback: a second cursor serves the base query, natively,
    with neither offset nor limit; both cursors are closed; the
    library evaluates the rest over the events of the base query. *)
Lemma Query_fallback_plan (d : Datastore) (q : query.Query)
      (base : option Order) :
  plan (Orders q) = PlanFallback base -> newIterErr (db d) = None ->
  Query consumer d q =
  let id := nextIter (db d) in
  let bq := baseQuery_of q base in
  let ch :=
    snd (streamer consumer 0 0 (Filters q) (KeysOnly q) (ReturnsSizes q)
                  (shown (db d) bq) (mkChan [] 0)) in
  (after_cursors d
     [EvNewIter id; EvNewIter (S id);
      if descending (Orders bq) then EvLast (S id) else EvFirst (S id);
      EvClose (S id); EvClose id] 2,
   inl (NaiveQueryApply (naiveQuery_of q) (mkResults q (delivered ch)))).
Proof.
  intros Hplan Herr.
  pose proof (baseQuery_native q base
                (fun o Hb => plan_fallback_base _ _ o Hplan Hb)) as Hnat.
  assert (forall d1 iter,
    db d1 = mkDB (cells (db d)) None (writeErr (db d))
                 (iterlog (db d) ++ [EvNewIter (nextIter (db d))])
                 (S (nextIter (db d))) (flushes (db d)) (closes (db d)) ->
    status d1 = status d -> closing d1 = closing d -> wg d1 = wg d ->
    iid iter = nextIter (db d) ->
    (let '(d2, r) :=
       inefficientOrderQuery (Query consumer) d1 q base in
     (with_db (iter_Close (db d2) iter) d2, r)) =
    (after_cursors d
       [EvNewIter (nextIter (db d)); EvNewIter (S (nextIter (db d)));
        if descending (Orders (baseQuery_of q base))
        then EvLast (S (nextIter (db d))) else EvFirst (S (nextIter (db d)));
        EvClose (S (nextIter (db d))); EvClose (nextIter (db d))] 2,
     inl (NaiveQueryApply (naiveQuery_of q)
            (mkResults q (delivered (snd
               (streamer consumer 0 0 (Filters q) (KeysOnly q)
                  (ReturnsSizes q) (shown (db d) (baseQuery_of q base))
                  (mkChan [] 0)))))))) as Hfall.
  { intros d1 iter Hdb Hst Hcl Hwg Hid. unfold inefficientOrderQuery.
    fold (baseQuery_of q base).
    rewrite (Query_native_run consumer d1 (baseQuery_of q base) Hnat)
      by (by rewrite Hdb).
    cbv zeta. unfold ResultsReplaceQuery, after_cursors, iter_Close,
      log_event, with_db. simpl. rewrite Hdb, Hst, Hcl, Hwg, Hid, Herr. simpl.
    rewrite <- !app_assoc. simpl.
    replace (shown d1.(db) (baseQuery_of q base))
      with (shown (db d) (baseQuery_of q base))
      by (unfold shown, scanned; by rewrite Hdb).
    assert (Offset (baseQuery_of q base) = 0 /\
            Limit (baseQuery_of q base) = 0 /\
            Filters (baseQuery_of q base) = Filters q /\
            KeysOnly (baseQuery_of q base) = KeysOnly q /\
            ReturnsSizes (baseQuery_of q base) = ReturnsSizes q)
      as (-> & -> & -> & -> & ->) by (by destruct base).
    done. }
  rewrite Query_unfold. unfold QueryF, NewIterWithContext. rewrite Herr.
  destruct (Orders q) as [|o [|o' os]] eqn:Ho.
  - done.
  - destruct o; simpl in Hplan; try done. injection Hplan as <-.
    by apply Hfall.
  - unfold plan in Hplan. cbv zeta.
    destruct (baseOrderLoop _ _ _) as [b|e] eqn:Hloop; [|done].
    injection Hplan as <-. by apply Hfall.
Qed.

(** The cursors of a call, counted: unless the planner returns its
    error, every cursor that the call opens it also closes, once. *)
Lemma Query_cursor_accounting (d : Datastore) (q : query.Query) :
  newIterErr (db d) = None ->
  exists evs,
    iterlog (db (fst (Query consumer d q))) = iterlog (db d) ++ evs /\
    match plan (Orders q) with
    | PlanError _ => evs = [EvNewIter (nextIter (db d))]
    | _ => forall id, opened id evs = released id evs /\
                      (opened id evs <= 1)%nat
    end.
Proof.
  intros Herr. destruct (plan (Orders q)) as [back|base|err] eqn:Hplan.
  - rewrite (Query_native_plan d q back Hplan Herr). cbv zeta. simpl.
    eexists. split; [done|]. intros id. unfold opened, released.
    destruct back; rewrite !filter_cons, !filter_nil;
      repeat case_decide; simplify_eq; simpl; lia.
  - rewrite (Query_fallback_plan d q base Hplan Herr). cbv zeta. simpl.
    eexists. split; [done|]. intros id. unfold opened, released.
    destruct (descending _); rewrite !filter_cons, !filter_nil;
      repeat case_decide; simplify_eq; simpl; lia.
  - rewrite (Query_error_plan d q err Hplan Herr). simpl.
    eexists. split; done.
Qed.

End WithLibrary.

End RunFacts.

(** ** Sanity checks on the sample data *)

Module SampleFacts.

Import Sample Reference.

Example UpperBound_01 : UpperBound [x01] = Some [x02].
Proof. reflexivity. Qed.
Example UpperBound_0000ff : UpperBound [x00; x00; xff] = Some [x00; x01].
Proof. reflexivity. Qed.
Example UpperBound_0000ff01 :
  UpperBound [x00; x00; xff; x01] = Some [x00; x00; xff; x02].
Proof. reflexivity. Qed.
Example UpperBound_ffffff : UpperBound [xff; xff; xff] = None.
Proof. reflexivity. Qed.
Example UpperBound_empty : UpperBound [] = None.
Proof. reflexivity. Qed.

Example sampleDB_by_Put :
  db (fst (Put (fst (Put (fst (Put (NewDatastore emptyDB)
       (bs "/a/2") (bs "y"))) (bs "/b/1") (bs "z"))) (bs "/a/1") (bs "x")))
  = sampleDB.
Proof. reflexivity. Qed.

Example query_prefix_a :
  events_of (snd (Query always (NewDatastore sampleDB) sampleQuery)) =
  inl [ResultOfEntry (entry "/a/1" "x"); ResultOfEntry (entry "/a/2" "y")].
Proof. reflexivity. Qed.

Example query_prefix_a_descending :
  events_of (snd (Query always (NewDatastore sampleDB)
                        (with_Orders [OrderByKeyDescending] sampleQuery))) =
  inl [ResultOfEntry (entry "/a/2" "y"); ResultOfEntry (entry "/a/1" "x")].
Proof. reflexivity. Qed.

Lemma always_receiving : receiving always.
Proof. done. Qed.

(** The reference instance reads a negative limit as no limit. *)
Lemma reference_negative_limit :
  negative_limit_is_no_limit (H := Reference.reference).
Proof.
  intros nq q1 q2 evs Hneg. simpl. unfold Reference.naiveApply. simpl.
  replace (Limit nq <=? 0) with true by (symmetry; apply Z.leb_le; lia).
  done.
Qed.

End SampleFacts.

(** * The claims *)

(** ** C1: the upper bound of a prefix scan *)

(** C1.  The upper bound that [Query] computes is the one the
    specification describes: scanning the prefix from its last byte
    backward, the last byte that is not 0xff is incremented (by one,
    without wrapping) and the prefix is cut after it.  There is no upper
    bound exactly when the prefix is empty or all 0xff.  For every
    other prefix there is one, and the keys with the prefix are exactly
    the keys [K] with [prefix <= K < upper] in byte-lexicographic
    order. *)
Theorem UpperBound_correct (P : bytes) :
  UpperBound P = upper_spec P /\
  (forall pre b n,
     P = pre ++ b :: replicate n xff -> b <> xff ->
     UpperBound P = Some (pre ++ [byte_inc b]) /\
     Byte.to_N (byte_inc b) = (Byte.to_N b + 1)%N) /\
  (UpperBound P = None <-> Forall (fun b => b = xff) P) /\
  (~ Forall (fun b => b = xff) P ->
   exists u, UpperBound P = Some u /\
             forall K, HasPrefix K P = true <-> in_range P (Some u) K).
Proof.
  rewrite BoundFacts.UpperBound_front. split; [|split; [|split]].
  - symmetry. apply BoundFacts.upper_spec_front.
  - intros pre b n -> Hb. split.
    + by apply BoundFacts.upper_from_front_last.
    + by apply BytesFacts.to_N_byte_inc.
  - apply BoundFacts.upper_from_front_None.
  - intros Hsome. destruct (upper_from_front P) as [u|] eqn:Hu.
    + exists u. split; [done|]. intros K. unfold in_range.
      by apply BoundFacts.range_front.
    + by apply BoundFacts.upper_from_front_None in Hu.
Qed.

Lemma UpperBound_correct_witness :
  UpperBound (Sample.bs "/a/") = Some (Sample.bs "/a0") /\
  (HasPrefix (Sample.bs "/a/1") (Sample.bs "/a/") = true <->
   in_range (Sample.bs "/a/") (Some (Sample.bs "/a0")) (Sample.bs "/a/1")).
Proof.
  split; [reflexivity|].
  destruct (proj2 (proj2 (proj2 (UpperBound_correct (Sample.bs "/a/")))))
    as (u & Hu & Hrange).
  - intros Hall. inversion Hall. discriminate.
  - injection Hu as <-. apply Hrange.
Defined.

(** ** C2: several orders *)

(** C2, as stated, fails: with the orders [[ByKeyAscending, Other]] (two
    orders, one key order) [Query] returns the incompatible-orders
    error. *)
Lemma Query_rejects_key_order_first :
  let q := with_Orders [OrderByKey; Sample.byValueSize] Sample.sampleQuery in
  (2 <= length (Orders q))%nat /\
  length (filter (fun o => Is_true (isKeyOrder o)) (Orders q)) = 1%nat /\
  snd (Query Sample.always (NewDatastore Sample.sampleDB) q) =
  inr (ErrIncompatibleOrders (Orders q)).
Proof. split; [simpl; lia|]. split; reflexivity. Qed.

(** C2, amended.  For every query with at least two orders of which
    none but the last is a key order, the planner's loop ends without
    error and finds as base order the last order, if that is a key
    order, and none otherwise.  [Query] then runs the fallback: unless
    the engine refuses a cursor, the base query is iterated natively in
    the base order without offset or limit, and the library evaluates
    the query, with its full list of orders, over the events of the base
    query. *)
Theorem Query_fallback_when_key_order_last `{GoDatastore}
        (consumer : Consumer) (d : Datastore) (q : query.Query)
        (init : list Order) (o : Order) :
  Orders q = init ++ [o] -> init <> [] ->
  Forall (fun x => isKeyOrder x = false) init ->
  let base := if isKeyOrder o then Some o else None in
  baseOrderLoop (Orders q) None (Orders q) = inl base /\
  (forall err, newIterErr (db d) = Some err ->
               Query consumer d q = (d, inr err)) /\
  (newIterErr (db d) = None ->
   snd (Query consumer d q) =
   inl (NaiveQueryApply (naiveQuery_of q)
          (mkResults q
             (events_from consumer (baseQuery_of q base)
                          (shown (db d) (baseQuery_of q base))))) /\
   Orders (naiveQuery_of q) = Orders q /\
   Orders (baseQuery_of q base) = option_list base /\
   Offset (baseQuery_of q base) = 0 /\ Limit (baseQuery_of q base) = 0).
Proof.
  intros Ho Hinit Hothers base.
  assert (baseOrderLoop (Orders q) None (Orders q) = inl base) as Hloop.
  { rewrite Ho at 2. by apply PlannerFacts.baseOrderLoop_last. }
  split; [done|]. split; [intros err; apply RunFacts.Query_refused|].
  intros Herr.
  assert (plan (Orders q) = PlanFallback base) as Hplan.
  { unfold plan. rewrite Hloop. rewrite Ho.
    destruct init as [|x [|y init]]; [done| |]; done. }
  rewrite (RunFacts.Query_fallback_plan consumer d q base Hplan Herr).
  split; [|by destruct base].
  cbv zeta. unfold events_from, stream_of. simpl snd.
  by destruct base.
Qed.

Lemma Query_fallback_when_key_order_last_witness :
  let q := with_Orders [Sample.byValueSize; OrderByKeyDescending]
                       Sample.sampleQuery in
  baseOrderLoop (Orders q) None (Orders q) = inl (Some OrderByKeyDescending) /\
  events_of (snd (Query Sample.always (NewDatastore Sample.sampleDB) q)) =
  inl [ResultOfEntry (Sample.entry "/a/2" "y");
       ResultOfEntry (Sample.entry "/a/1" "x")].
Proof.
  intros q.
  pose proof (Query_fallback_when_key_order_last
                Sample.always (NewDatastore Sample.sampleDB) q
                [Sample.byValueSize] OrderByKeyDescending
                eq_refl ltac:(discriminate)
                ltac:(repeat constructor)) as [Hloop [_ Hrun]].
  split; [exact Hloop|].
  destruct (Hrun eq_refl) as [-> _]. reflexivity.
Defined.

(** ** C3: errors of the cursor *)

Module FailureFacts.

Lemma valid_positions_clean (travel : list Cell) :
  Forall (fun c => cerror c = None) (valid_positions travel).
Proof.
  induction travel as [|c rest IH]; simpl; [done|].
  destruct (cerror c) eqn:Hc; [done|]. by constructor.
Qed.

Section Loops.

Variable consumer : Consumer.
Variables (offset limit : Z) (filters : list Filter).
Variables (keysOnly returnSizes : bool).
Variable P : Result -> Prop.
Hypothesis entries : forall e, P (ResultOfEntry e).
Hypothesis notices :
  (exists n, consumer n = Gone true) -> P (ResultOfError ErrCloseRequested).

Lemma send_entry (e : Entry) (ch : Chan) :
  Forall P (delivered ch) ->
  Forall P (delivered (snd (sendOrInterrupt consumer (ResultOfEntry e) ch))).
Proof.
  intros Hch. unfold sendOrInterrupt.
  destruct (consumer (attempts ch)) as [|[]] eqn:Hc; simpl; [| |done].
  - apply Forall_app. split; [done|]. by constructor.
  - apply Forall_app. split; [done|]. constructor; [|done].
    apply notices. by exists (attempts ch).
Qed.

(** Over positions without errors the loops send entries only. *)
Lemma emit_clean (cs : list Cell) (sent : Z) (ch : Chan) :
  Forall (fun c => cerror c = None) cs ->
  Forall P (delivered ch) ->
  Forall P (delivered (snd (emitLoop consumer limit filters keysOnly
                              returnSizes sent cs ch))).
Proof.
  intros Hclean. revert sent ch.
  induction Hclean as [|c cs Hc _ IH]; intros sent ch Hch; [done|].
  rewrite StreamerFacts.emit_cons.
  destruct ((limit <=? 0) || (sent <? limit)); [|done].
  unfold reportError. rewrite Hc. simpl.
  destruct (createEntry keysOnly returnSizes c) as [e|]; [|by apply IH].
  destruct (doFilter filters && negb (filterFn filters e)); [by apply IH|].
  pose proof (send_entry e ch Hch) as Hsend.
  destruct (sendOrInterrupt consumer (ResultOfEntry e) ch) as [[[]|] ch1];
    [by apply IH | done].
Qed.

Lemma skip_clean (cs : list Cell) (skipped : Z) (ch : Chan) :
  Forall (fun c => cerror c = None) cs ->
  exists rest,
    skipLoop consumer offset filters keysOnly returnSizes skipped cs ch =
      (Some rest, ch) /\
    Forall (fun c => cerror c = None) rest.
Proof.
  intros Hclean. revert skipped.
  induction Hclean as [|c cs Hc Hcs IH]; intros skipped; [by exists []|].
  rewrite StreamerFacts.skip_cons.
  destruct (skipped <? offset);
    [|exists (c :: cs); split; [done | by constructor]].
  unfold reportError. rewrite Hc. simpl.
  destruct (createEntry keysOnly returnSizes c) as [e|]; [|by apply IH].
  destruct (doFilter filters && negb (filterFn filters e)); by apply IH.
Qed.

Lemma streamer_clean (cs : list Cell) :
  Forall (fun c => cerror c = None) cs ->
  Forall P (delivered (snd (streamer consumer offset limit filters keysOnly
                              returnSizes cs (mkChan [] 0)))).
Proof.
  intros Hclean. unfold streamer, bind.
  destruct (skip_clean cs 0 (mkChan [] 0) Hclean) as (rest & -> & Hrest).
  by apply emit_clean.
Qed.

End Loops.

End FailureFacts.

(** C3 fails on the program.  [Query] reads [iter.Error()] only inside
    its two loops, whose condition is [iter.Valid()], and a cursor of
    the engine is not valid once it has met an error.  So when the
    cursor fails while it moves, the loop ends as it does when the
    cursor runs out: the stream carries the entries of the positions
    before the failure and then closes, and no event carries the error.
    The only error event there can be is the notice of an interrupted
    send; a consumer that takes every event gets no error event at
    all. *)
Theorem cursor_failure_is_not_reported
        (consumer : Consumer) (d : Datastore) (q : query.Query)
        (iter : Iterator) (travel : list Cell) (err : Err) :
  ahead iter = valid_positions travel -> failure travel = Some err ->
  let evs := events_from consumer q (valid_positions travel) in
  events_of (snd (runQuery consumer d q iter)) = inl evs /\
  Forall entry_or_close_notice evs /\
  (err <> ErrCloseRequested -> ResultOfError err ∉ evs) /\
  (receiving consumer ->
   errors_of evs = [] /\
   entries_of evs = window q (wanted q (valid_positions travel))).
Proof.
  intros Hahead Hfail evs.
  pose proof (FailureFacts.valid_positions_clean travel) as Hclean.
  assert (Forall entry_or_close_notice evs) as Hall.
  { subst evs. unfold events_from, stream_of.
    apply FailureFacts.streamer_clean; [by left | by right | done]. }
  split; [|split; [exact Hall|split]].
  - subst evs. unfold runQuery, iter_Valid, events_from, stream_of.
    rewrite Hahead. destruct (valid_positions travel) as [|c cs]; [done|].
    simpl negb. cbv iota.
    by destruct (streamer _ _ _ _ _ _ _ _) as [o ch].
  - intros Hne Hin.
    destruct (proj1 (Forall_forall _ _) Hall _ Hin) as [Hr|Hr]; [done|].
    by injection Hr.
  - intros Hrecv. split.
    + assert (Forall (fun r => RError r = None) evs) as Hnone.
      { subst evs. unfold events_from, stream_of.
        apply FailureFacts.streamer_clean; [done| |done].
        intros [n Hn]. by rewrite Hrecv in Hn. }
      clear Hall. unfold errors_of.
      induction Hnone as [|r rs Hr _ IH]; [done|].
      simpl. by rewrite Hr.
    + subst evs. unfold events_from, stream_of, window, wanted.
      destruct (StreamerFacts.streamer_received consumer (Offset q)
                  (Limit q) (Filters q) (KeysOnly q) (ReturnsSizes q)
                  Hrecv (valid_positions travel)) as (ch & -> & Hent & _).
      exact Hent.
Qed.

Lemma cursor_failure_is_not_reported_witness :
  failure Sample.brokenTravel = Some (ErrEngine 7) /\
  events_of (snd (runQuery Sample.always (NewDatastore Sample.sampleDB)
                           Sample.sampleQuery
                           (mkIterator 0 Sample.brokenTravel
                              (valid_positions Sample.brokenTravel)))) =
  inl [ResultOfEntry (Sample.entry "/a/1" "x")].
Proof.
  split; [reflexivity|].
  apply (proj1 (cursor_failure_is_not_reported
                  Sample.always (NewDatastore Sample.sampleDB)
                  Sample.sampleQuery
                  (mkIterator 0 Sample.brokenTravel
                     (valid_positions Sample.brokenTravel))
                  Sample.brokenTravel (ErrEngine 7) eq_refl eq_refl)).
Defined.

(** ** C4: the cursor on the planning error *)

(** C4 fails on the path of the planning error: with the orders
    [[ByKeyAscending, ByKeyDescending]] over the sample dataset,
    [Query] returns the incompatible-orders error and leaves the engine
    with one cursor opened and never closed. *)
Theorem Query_leaks_cursor_on_planning_error :
  let q := with_Orders [OrderByKey; OrderByKeyDescending] Sample.sampleQuery in
  let r := Query Sample.always (NewDatastore Sample.sampleDB) q in
  snd r = inr (ErrIncompatibleOrders (Orders q)) /\
  iterlog (db (fst r)) = [EvNewIter 0] /\
  opened 0 (iterlog (db (fst r))) = 1%nat /\
  released 0 (iterlog (db (fst r))) = 0%nat.
Proof. repeat split; reflexivity. Qed.

(** ** C5: offset and limit *)

(** C5.  Let the query have offset [k >= 0] and limit [n > 0], the
    engine hand out its cursors and the consumer take every event.  A
    native query then delivers exactly the entries at the positions
    [[k, k+n)] of the sequence that the same query delivers without
    offset and limit.  That sequence consists of the entries wanted of
    the cells in cursor order: those that pass every filter, so that an
    entry failing a filter takes no offset slot.  In the fallback the
    streamer delivers that whole sequence, for the base query, and
    offset and limit are passed on to the library unchanged. *)
Theorem Query_offset_limit `{GoDatastore}
        (consumer : Consumer) (d : Datastore) (q : query.Query) :
  receiving consumer -> newIterErr (db d) = None ->
  0 <= Offset q -> 0 < Limit q ->
  (native (Orders q) = true ->
   exists res res0,
     snd (Query consumer d q) = inl res /\
     snd (Query consumer d (with_Limit 0 (with_Offset 0 q))) = inl res0 /\
     entries_of (REvents res0) = wanted q (shown (db d) q) /\
     entries_of (REvents res) =
       take (Z.to_nat (Limit q))
            (drop (Z.to_nat (Offset q)) (entries_of (REvents res0)))) /\
  (forall base,
     plan (Orders q) = PlanFallback base ->
     exists evs,
       snd (Query consumer d q) =
         inl (NaiveQueryApply (naiveQuery_of q) (mkResults q evs)) /\
       entries_of evs = wanted q (shown (db d) (baseQuery_of q base)) /\
       Offset (naiveQuery_of q) = Offset q /\
       Limit (naiveQuery_of q) = Limit q /\
       Orders (naiveQuery_of q) = Orders q).
Proof.
  intros Hrecv Herr Hk Hlim. split.
  - intros Hn.
    rewrite (QueryFacts.Query_native_run consumer d q Hn Herr).
    rewrite (QueryFacts.Query_native_run consumer d
               (with_Limit 0 (with_Offset 0 q)) Hn Herr).
    cbv zeta. do 2 eexists. split; [reflexivity|]. split; [reflexivity|].
    simpl REvents.
    destruct (StreamerFacts.streamer_received consumer (Offset q) (Limit q)
                (Filters q) (KeysOnly q) (ReturnsSizes q) Hrecv (shown (db d) q))
      as (ch & -> & Hent & _).
    destruct (StreamerFacts.streamer_received consumer 0 0
                (Filters q) (KeysOnly q) (ReturnsSizes q) Hrecv (shown (db d) q))
      as (ch0 & Hrun0 & Hent0 & _).
    change (shown (db d) (with_Limit 0 (with_Offset 0 q))) with (shown (db d) q).
    simpl Offset. simpl Limit. simpl Filters. simpl KeysOnly. simpl ReturnsSizes.
    rewrite Hrun0. simpl snd. rewrite Hent, Hent0. simpl.
    replace (Limit q <=? 0) with false by (symmetry; apply Z.leb_gt; lia).
    done.
  - intros base Hplan.
    rewrite (RunFacts.Query_fallback_plan consumer d q base Hplan Herr).
    cbv zeta. eexists. split; [reflexivity|]. split; [|done].
    destruct (StreamerFacts.streamer_received consumer 0 0
                (Filters q) (KeysOnly q) (ReturnsSizes q) Hrecv
                (shown (db d) (baseQuery_of q base)))
      as (ch0 & -> & Hent0 & _).
    simpl snd. rewrite Hent0. simpl. by rewrite drop_0.
Qed.

Lemma Query_offset_limit_witness :
  let q := with_Limit 1 (with_Offset 1 Sample.sampleQuery) in
  exists res,
    snd (Query Sample.always (NewDatastore Sample.sampleDB) q) = inl res /\
    entries_of (REvents res) = [Sample.entry "/a/2" "y"].
Proof.
  intros q.
  destruct (Query_offset_limit Sample.always (NewDatastore Sample.sampleDB) q)
    as [Hnative _].
  - intros n. reflexivity.
  - reflexivity.
  - simpl. lia.
  - simpl. lia.
  - destruct (Hnative eq_refl) as (res & res0 & Hres & Hres0 & Hall & Hslice).
    exists res. split; [exact Hres|]. rewrite Hslice, Hall. reflexivity.
Defined.

(** ** C6: conflicting key orders *)

(** C6.  When both an ascending and a descending key order are among
    the orders, [Query] returns an error and no results; the error is
    the incompatible-orders error whenever the engine hands out the
    cursor.  No cursor is positioned, no streamer is registered, and
    the log of the engine grows by the opening of one cursor at most. *)
Theorem Query_conflicting_key_orders `{GoDatastore}
        (consumer : Consumer) (d : Datastore) (q : query.Query)
        (a b : Order) :
  a ∈ Orders q -> isKeyAscending a = true ->
  b ∈ Orders q -> isKeyDescending b = true ->
  let r := Query consumer d q in
  (exists err, snd r = inr err) /\
  (newIterErr (db d) = None ->
   snd r = inr (ErrIncompatibleOrders (Orders q))) /\
  (exists evs, iterlog (db (fst r)) = iterlog (db d) ++ evs /\
               positioned evs = false /\
               (evs = [] \/ evs = [EvNewIter (nextIter (db d))])) /\
  cells (db (fst r)) = cells (db d) /\ wg (fst r) = wg d.
Proof.
  intros Ha Hasc Hb Hdesc r. subst r.
  destruct (PlannerFacts.conflicting_key_orders _ a b Ha Hasc Hb Hdesc)
    as (l1 & x & l2 & Ho & Hx & Hl2).
  assert (plan (Orders q) = PlanError (ErrIncompatibleOrders (Orders q)))
    as Hplan.
  { assert (baseOrderLoop (Orders q) None (Orders q) =
            inr (ErrIncompatibleOrders (Orders q))) as Hloop.
    { rewrite Ho at 2. by apply PlannerFacts.baseOrderLoop_early_key. }
    unfold plan. rewrite Hloop. rewrite Ho.
    destruct l1 as [|y [|z l1]]; destruct l2; done. }
  destruct (newIterErr (db d)) as [err|] eqn:Herr.
  - rewrite (RunFacts.Query_refused consumer d q err Herr). simpl.
    split; [eauto|]. split; [done|]. split; [|done].
    exists []. rewrite app_nil_r. auto.
  - rewrite (RunFacts.Query_error_plan consumer d q _ Hplan Herr). simpl.
    split; [eauto|]. split; [done|]. split; [|done].
    eexists. split; [done|]. auto.
Qed.

Lemma Query_conflicting_key_orders_witness :
  let q := with_Orders [OrderByKey; OrderByKeyDescending] Sample.sampleQuery in
  snd (Query Sample.always (NewDatastore Sample.sampleDB) q) =
  inr (ErrIncompatibleOrders (Orders q)).
Proof.
  intros q.
  apply (Query_conflicting_key_orders
           Sample.always (NewDatastore Sample.sampleDB) q
           OrderByKey OrderByKeyDescending).
  - apply list_elem_of_here.
  - reflexivity.
  - apply list_elem_of_further, list_elem_of_here.
  - reflexivity.
  - reflexivity.
Defined.

(** ** C7: the close protocol *)

Module CloseFacts.












End CloseFacts.




(** ** C8: the order of operations in a batch *)

Module BatchFacts.

Import BytesFacts.

Lemma cells_get_set (key value : bytes) (cs : list Cell) :
  cells_get key (cells_set key value cs) = Some (mkCell key (inl value) None).
Proof.
  induction cs as [|c cs IH]; simpl.
  - by rewrite compare_refl.
  - destruct (Bytes.compare key (ckey c)) eqn:Hc; simpl.
    + by rewrite compare_refl.
    + by rewrite compare_refl.
    + by rewrite Hc.
Qed.

Lemma cells_get_delete (key : bytes) (cs : list Cell) :
  cells_get key (cells_delete key cs) = None.
Proof.
  induction cs as [|c cs IH]; simpl; [done|].
  destruct (Bytes.compare key (ckey c)) eqn:Hc; simpl; [done| |];
    by rewrite Hc.
Qed.

Lemma foldl_snoc (cs : list Cell) (l : list BatchOp) (op : BatchOp) :
  foldl apply_op cs (l ++ [op]) = apply_op (foldl apply_op cs l) op.
Proof. by rewrite foldl_app. Qed.

End BatchFacts.

(** C8.  On a datastore whose engine takes writes, for every key [K]
    and every batch, whatever it holds already: after [Put(K, "a")],
    then [Delete(K)], then [Commit], the key is absent; after
    [Delete(K)], then [Put(K, "a")], then [Commit], the key is present
    with the value ["a"].  The wrapper hands both operations to the
    engine's batch in the order of the calls, removing neither, and the
    engine applies them in that order. *)
Theorem Batch_later_operation_wins (d : Datastore) (b0 : Batch) (K : bytes) :
  writeErr (db d) = None -> refusal (batch b0) = None ->
  let a := Sample.bs "a" in
  (let '(b1, e1) := Batch_Put b0 K a in
   let '(b2, e2) := Batch_Delete b1 K in
   let '(d', e3) := Batch_Commit d b2 in
   e1 = None /\ e2 = None /\ e3 = None /\
   ops (batch b2) = ops (batch b0) ++ [OpSet K a; OpDelete K] /\
   Get d' K = inr ErrNotFound /\ Has d' K = (false, None)) /\
  (let '(b1, e1) := Batch_Delete b0 K in
   let '(b2, e2) := Batch_Put b1 K a in
   let '(d', e3) := Batch_Commit d b2 in
   e1 = None /\ e2 = None /\ e3 = None /\
   ops (batch b2) = ops (batch b0) ++ [OpDelete K; OpSet K a] /\
   Get d' K = inl a /\ Has d' K = (true, None)).
Proof.
  intros Hw Hr a.
  unfold Batch_Put, Batch_Delete, Batch_Commit, batch_Set, batch_Delete,
    batch_Commit. simpl. rewrite !Hr, Hw. simpl.
  unfold Has, Get, get, db_Get. simpl.
  rewrite !BatchFacts.foldl_snoc. simpl.
  rewrite BatchFacts.cells_get_delete, BatchFacts.cells_get_set. simpl.
  rewrite <- !app_assoc. simpl.
  repeat split; reflexivity.
Qed.

Lemma Batch_later_operation_wins_witness :
  let d := NewDatastore Sample.sampleDB in
  let K := Sample.bs "/a/1" in
  let b0 := fst (Datastore_Batch d) in
  let a := Sample.bs "a" in
  Get (fst (Batch_Commit d (fst (Batch_Delete (fst (Batch_Put b0 K a)) K)))) K
  = inr ErrNotFound /\
  Get (fst (Batch_Commit d (fst (Batch_Put (fst (Batch_Delete b0 K)) K a)))) K
  = inl a.
Proof.
  intros d K b0 a.
  pose proof (Batch_later_operation_wins d b0 K eq_refl eq_refl) as [H1 H2].
  split.
  - exact (proj1 (proj2 (proj2 (proj2 (proj2 H1))))).
  - exact (proj1 (proj2 (proj2 (proj2 (proj2 H2))))).
Defined.

(** ** C9: a negative limit *)

(** C9.  With a negative limit the goroutine behaves, from any state
    of the cursor and the channel, as with limit 0.  Hence a native
    query with a negative limit leaves the datastore in the same state
    and delivers the same events as with limit 0; read by a consumer
    that takes every event, it delivers every wanted entry after the
    offset, up to the end of the cursor.  In the fallback the base
    query runs without limit in either case: [Query] leaves the same
    state and returns what the library makes of the events of the
    goroutine of the base query over the cells of the scan, the same
    events in both cases, and the limit reaches the library as it is.
    So for every query whatsoever, native, fallback or refused, and
    every answer of the engine, a negative limit gives the state and
    the events of limit 0, as the library reads a negative limit as no
    limit. *)
Theorem Query_negative_limit `{GoDatastore}
        (consumer : Consumer) (d : Datastore) (q : query.Query) :
  Limit q < 0 ->
  (forall cs ch, stream_of consumer q cs ch =
                 stream_of consumer (with_Limit 0 q) cs ch) /\
  (native (Orders q) = true ->
   fst (Query consumer d q) = fst (Query consumer d (with_Limit 0 q)) /\
   events_of (snd (Query consumer d q)) =
   events_of (snd (Query consumer d (with_Limit 0 q)))) /\
  (native (Orders q) = true -> receiving consumer ->
   newIterErr (db d) = None ->
   exists res,
     snd (Query consumer d q) = inl res /\
     entries_of (REvents res) =
       drop (Z.to_nat (Offset q)) (wanted q (shown (db d) q))) /\
  (forall base,
     plan (Orders q) = PlanFallback base -> newIterErr (db d) = None ->
     let bq := baseQuery_of q base in
     let evs := events_from consumer bq (shown (db d) bq) in
     fst (Query consumer d q) = fst (Query consumer d (with_Limit 0 q)) /\
     snd (Query consumer d q) =
       inl (NaiveQueryApply (naiveQuery_of q) (mkResults q evs)) /\
     snd (Query consumer d (with_Limit 0 q)) =
       inl (NaiveQueryApply (naiveQuery_of (with_Limit 0 q))
                            (mkResults (with_Limit 0 q) evs)) /\
     Limit (naiveQuery_of q) = Limit q /\
     Limit bq = 0) /\
  (negative_limit_is_no_limit ->
   fst (Query consumer d q) = fst (Query consumer d (with_Limit 0 q)) /\
   events_of (snd (Query consumer d q)) =
   events_of (snd (Query consumer d (with_Limit 0 q)))).
Proof.
  intros Hneg.
  assert (forall cs ch, stream_of consumer q cs ch =
                        stream_of consumer (with_Limit 0 q) cs ch) as Hstream.
  { intros cs ch. unfold stream_of. simpl.
    by apply StreamerFacts.streamer_negative_limit. }
  assert (native (Orders q) = true ->
          fst (Query consumer d q) = fst (Query consumer d (with_Limit 0 q)) /\
          events_of (snd (Query consumer d q)) =
          events_of (snd (Query consumer d (with_Limit 0 q)))) as Hnative.
  { intros Hn. destruct (newIterErr (db d)) as [err|] eqn:Herr.
    + by rewrite !(RunFacts.Query_refused consumer d _ err Herr).
    + rewrite (QueryFacts.Query_native_run consumer d q Hn Herr).
      rewrite (QueryFacts.Query_native_run consumer d (with_Limit 0 q) Hn Herr).
      cbv zeta. simpl. split; [done|]. f_equal. f_equal. f_equal.
      apply (Hstream (shown (db d) q) (mkChan [] 0)). }
  assert (forall base,
            plan (Orders q) = PlanFallback base -> newIterErr (db d) = None ->
            let bq := baseQuery_of q base in
            let evs := events_from consumer bq (shown (db d) bq) in
            fst (Query consumer d q) = fst (Query consumer d (with_Limit 0 q)) /\
            snd (Query consumer d q) =
              inl (NaiveQueryApply (naiveQuery_of q) (mkResults q evs)) /\
            snd (Query consumer d (with_Limit 0 q)) =
              inl (NaiveQueryApply (naiveQuery_of (with_Limit 0 q))
                                   (mkResults (with_Limit 0 q) evs)) /\
            Limit (naiveQuery_of q) = Limit q /\
            Limit bq = 0) as Hfallback.
  { intros base Hplan Herr bq evs.
    rewrite (RunFacts.Query_fallback_plan consumer d q base Hplan Herr).
    rewrite (RunFacts.Query_fallback_plan consumer d (with_Limit 0 q) base
               Hplan Herr).
    cbv zeta. split; [done|]. split; [|split; [|split]].
    - subst evs bq. unfold events_from, stream_of.
      by destruct base.
    - subst evs bq. unfold events_from, stream_of.
      by destruct base.
    - done.
    - subst bq. by destruct base. }
  split; [done|]. split; [done|]. split; [|split; [done|]].
  - intros Hn Hrecv Herr.
    rewrite (QueryFacts.Query_native_run consumer d q Hn Herr). cbv zeta.
    eexists. split; [reflexivity|]. simpl REvents.
    destruct (StreamerFacts.streamer_received consumer (Offset q) (Limit q)
                (Filters q) (KeysOnly q) (ReturnsSizes q) Hrecv (shown (db d) q))
      as (ch & -> & Hent & _).
    simpl snd. rewrite Hent.
    replace (Limit q <=? 0) with true by (symmetry; apply Z.leb_le; lia).
    done.
  - intros Hlaw. destruct (newIterErr (db d)) as [err|] eqn:Herr.
    { by rewrite !(RunFacts.Query_refused consumer d _ err Herr). }
    destruct (plan (Orders q)) as [back|base|err] eqn:Hplan.
    + apply Hnative. by apply RunFacts.plan_native in Hplan as [-> _].
    + destruct (Hfallback base eq_refl eq_refl) as (Hst & -> & -> & _).
      split; [done|]. simpl. f_equal. by apply Hlaw.
    + by rewrite (RunFacts.Query_error_plan consumer d q err Hplan Herr),
        (RunFacts.Query_error_plan consumer d (with_Limit 0 q) err Hplan Herr).
Qed.

Lemma Query_negative_limit_witness :
  let q := with_Limit (-3) Sample.sampleQuery in
  let sized := with_Orders [Sample.byValueSize] q in
  events_of (snd (Query Sample.always (NewDatastore Sample.sampleDB) q)) =
  inl [ResultOfEntry (Sample.entry "/a/1" "x");
       ResultOfEntry (Sample.entry "/a/2" "y")] /\
  events_of (snd (Query Sample.always (NewDatastore Sample.sampleDB) sized)) =
  events_of (snd (Query Sample.always (NewDatastore Sample.sampleDB)
                        (with_Limit 0 sized))).
Proof.
  intros q sized. split.
  - destruct (Query_negative_limit Sample.always
                (NewDatastore Sample.sampleDB) q)
      as (_ & Hsame & _ & _).
    + simpl. lia.
    + destruct (Hsame eq_refl) as [_ ->]. reflexivity.
  - destruct (Query_negative_limit Sample.always
                (NewDatastore Sample.sampleDB) sized)
      as (_ & _ & _ & _ & Hall).
    + simpl. lia.
    + apply Hall, SampleFacts.reference_negative_limit.
Defined.

(** ** C10: entries that cannot be materialised *)

(** C10.  A cell whose entry cannot be made (the query wants the value
    or the size, and reading the value fails) is passed over.  Where
    the cursor itself reports no error at the cell, the goroutine
    behaves, from any state of the channel and for any consumer, as if
    the cell were not there: nothing is delivered for it and it takes
    no offset slot; so does a native query over a cursor that shows the
    cell.  In any case a consumer that takes every event gets the
    entries it would get without the cell, and, when no limit cuts the
    iteration short, no errors but those that the cursor reports. *)
Theorem Query_drops_unreadable_entries `{GoDatastore}
        (consumer : Consumer) (d : Datastore) (q : query.Query)
        (l1 : list Cell) (c : Cell) (l2 : list Cell) (err : Err) :
  createEntry (KeysOnly q) (ReturnsSizes q) c = inr err ->
  ((KeysOnly q = false \/ ReturnsSizes q = true) /\ cvalue c = inr err) /\
  (cerror c = None ->
   forall ch, stream_of consumer q (l1 ++ c :: l2) ch =
              stream_of consumer q (l1 ++ l2) ch) /\
  (cerror c = None -> native (Orders q) = true ->
   newIterErr (db d) = None -> shown (db d) q = l1 ++ c :: l2 ->
   events_of (snd (Query consumer d q)) =
   inl (events_from consumer q (l1 ++ l2))) /\
  (receiving consumer ->
   entries_of (events_from consumer q (l1 ++ c :: l2)) =
   entries_of (events_from consumer q (l1 ++ l2)) /\
   (Limit q <= 0 ->
    errors_of (events_from consumer q (l1 ++ c :: l2)) =
    omap cerror (l1 ++ c :: l2))).
Proof.
  intros Hvalue.
  assert (cerror c = None ->
          forall ch, stream_of consumer q (l1 ++ c :: l2) ch =
                     stream_of consumer q (l1 ++ l2) ch) as Hstream.
  { intros Hquiet ch. unfold stream_of, streamer.
    by apply (StreamerFacts.skip_emit_unreadable _ _ _ _ _ _ c err). }
  split.
  { revert Hvalue. unfold createEntry.
    destruct (KeysOnly q), (ReturnsSizes q), (cvalue c); simpl;
      intros; simplify_eq; auto. }
  split; [done|]. split.
  - intros Hquiet Hn Herr Hshown.
    rewrite (QueryFacts.Query_native_run consumer d q Hn Herr). cbv zeta.
    simpl. rewrite Hshown. unfold events_from. f_equal. f_equal. f_equal.
    apply (Hstream Hquiet).
  - intros Hrecv. unfold events_from, stream_of.
    destruct (StreamerFacts.streamer_received consumer (Offset q) (Limit q)
                (Filters q) (KeysOnly q) (ReturnsSizes q) Hrecv (l1 ++ c :: l2))
      as (ch & -> & Hent & Herrs).
    destruct (StreamerFacts.streamer_received consumer (Offset q) (Limit q)
                (Filters q) (KeysOnly q) (ReturnsSizes q) Hrecv (l1 ++ l2))
      as (ch' & -> & Hent' & _).
    simpl snd. split; [|done]. rewrite Hent, Hent'.
    assert (candidates (Filters q) (KeysOnly q) (ReturnsSizes q) (l1 ++ c :: l2) =
            candidates (Filters q) (KeysOnly q) (ReturnsSizes q) (l1 ++ l2))
      as ->; [|done].
    unfold candidates. rewrite !omap_app. f_equal. simpl.
    unfold candidate. by rewrite Hvalue.
Qed.

Lemma Query_drops_unreadable_entries_witness :
  events_of (snd (Query Sample.always (NewDatastore Sample.unreadableDB)
                        Sample.sampleQuery)) =
  inl [ResultOfEntry (Sample.entry "/a/2" "y")].
Proof.
  destruct (Query_drops_unreadable_entries
              Sample.always (NewDatastore Sample.unreadableDB)
              Sample.sampleQuery []
              (mkCell (Sample.bs "/a/1") (inr (ErrEngine 9)) None)
              [mkCell (Sample.bs "/a/2") (inl (Sample.bs "y")) None]
              (ErrEngine 9) eq_refl) as (_ & _ & Hquery & _).
  rewrite (Hquery eq_refl eq_refl eq_refl eq_refl). reflexivity.
Defined.

(** * Further properties *)

(** ** Reading and writing single keys *)

Module StoreFacts.

Import BytesFacts.

Lemma compare_neq (a b : bytes) : a <> b -> Bytes.compare a b <> Eq.
Proof. intros Hne Hc. by apply compare_eq in Hc. Qed.

Lemma cells_get_set_other (key key' value : bytes) (cs : list Cell) :
  key' <> key ->
  cells_get key' (cells_set key value cs) = cells_get key' cs.
Proof.
  intros Hne. pose proof (compare_neq key' key Hne) as Hc.
  induction cs as [|c cs IH]; simpl.
  - by destruct (Bytes.compare key' key).
  - destruct (Bytes.compare key (ckey c)) eqn:Hk; simpl.
    + apply compare_eq in Hk. subst key.
      by destruct (Bytes.compare key' (ckey c)).
    + by destruct (Bytes.compare key' key).
    + by rewrite IH.
Qed.

Lemma cells_get_delete_other (key key' : bytes) (cs : list Cell) :
  key' <> key ->
  cells_get key' (cells_delete key cs) = cells_get key' cs.
Proof.
  intros Hne. pose proof (compare_neq key' key Hne) as Hc.
  induction cs as [|c cs IH]; simpl; [done|].
  destruct (Bytes.compare key (ckey c)) eqn:Hk; simpl.
  - apply compare_eq in Hk. subst key.
    rewrite IH. by destruct (Bytes.compare key' (ckey c)).
  - by rewrite IH.
  - by rewrite IH.
Qed.

Lemma get_cells (d : Datastore) (cs : list Cell) (key : bytes) :
  get (with_db (with_cells cs (db d)) d) key =
  match cells_get key cs with
  | Some c =>
      match cvalue c with
      | inr err =>
          if errors_Is_PebbleErrNotFound err then inr ErrNotFound else inr err
      | inl val => inl val
      end
  | None => inr ErrNotFound
  end.
Proof. unfold get, db_Get. simpl. by destruct (cells_get key cs). Qed.

Lemma get_same_cells (d d' : Datastore) (key : bytes) :
  cells_get key (cells (db d')) = cells_get key (cells (db d)) ->
  get d' key = get d key.
Proof. intros Hc. unfold get, db_Get. by rewrite Hc. Qed.

End StoreFacts.

(** X1.  On a datastore whose engine takes writes, [Put] returns nil;
    afterwards [Get] of the key returns the value put, [Has] is true,
    [GetSize] is its length, and [Get] of every other key returns what
    it returned before. *)
Theorem Put_then_Get (d : Datastore) (key value : bytes) :
  writeErr (db d) = None ->
  let d' := fst (Put d key value) in
  snd (Put d key value) = None /\
  Get d' key = inl value /\
  Has d' key = (true, None) /\
  GetSize d' key = (Z.of_nat (length value), None) /\
  (forall key', key' <> key -> Get d' key' = Get d key').
Proof.
  intros Hw d'. subst d'. unfold Put, db_Set. rewrite Hw. simpl.
  unfold Has, GetSize, Get. rewrite StoreFacts.get_cells.
  rewrite BatchFacts.cells_get_set. simpl. repeat split.
  intros key' Hne. apply StoreFacts.get_same_cells. simpl.
  by apply StoreFacts.cells_get_set_other.
Qed.

Lemma Put_then_Get_witness :
  let d := NewDatastore Sample.sampleDB in
  Get (fst (Put d (Sample.bs "/a/2") (Sample.bs "new"))) (Sample.bs "/a/2")
  = inl (Sample.bs "new") /\
  Get (fst (Put d (Sample.bs "/a/2") (Sample.bs "new"))) (Sample.bs "/a/1")
  = inl (Sample.bs "x").
Proof.
  intros d.
  destruct (Put_then_Get d (Sample.bs "/a/2") (Sample.bs "new") eq_refl)
    as (_ & Hget & _ & _ & Hother).
  split; [exact Hget|].
  rewrite Hother; [reflexivity | discriminate].
Defined.

(** X2.  On a datastore whose engine takes writes, [Delete] returns nil
    whether or not the key is stored; afterwards [Get] of the key
    returns the not-found error, [Has] is false without error,
    [GetSize] is -1 with the not-found error, and [Get] of every other
    key returns what it returned before. *)
Theorem Delete_then_missing (d : Datastore) (key : bytes) :
  writeErr (db d) = None ->
  let d' := fst (Delete d key) in
  snd (Delete d key) = None /\
  Get d' key = inr ErrNotFound /\
  Has d' key = (false, None) /\
  GetSize d' key = (-1, Some ErrNotFound) /\
  (forall key', key' <> key -> Get d' key' = Get d key').
Proof.
  intros Hw d'. subst d'. unfold Delete, db_Delete. rewrite Hw. simpl.
  unfold Has, GetSize, Get. rewrite StoreFacts.get_cells.
  rewrite BatchFacts.cells_get_delete. simpl. repeat split.
  intros key' Hne. apply StoreFacts.get_same_cells. simpl.
  by apply StoreFacts.cells_get_delete_other.
Qed.

Lemma Delete_then_missing_witness :
  let d := NewDatastore Sample.sampleDB in
  Has (fst (Delete d (Sample.bs "/a/2"))) (Sample.bs "/a/2") = (false, None) /\
  Has (fst (Delete d (Sample.bs "/a/2"))) (Sample.bs "/a/1") = (true, None) /\
  snd (Delete d (Sample.bs "/zz")) = None.
Proof.
  intros d.
  destruct (Delete_then_missing d (Sample.bs "/a/2") eq_refl)
    as (_ & _ & Hhas & _ & _).
  split; [exact Hhas|]. split; reflexivity.
Defined.

(** ** Batches of any length *)

Module BatchSequenceFacts.

Lemma Batch_add_ops (b : Batch) (l : list BatchOp) :
  refusal (batch b) = None ->
  snd (Batch_add b l) = None /\
  ops (batch (fst (Batch_add b l))) = ops (batch b) ++ l.
Proof.
  revert b. induction l as [|op l IH]; intros b Hr; simpl.
  - by rewrite app_nil_r.
  - destruct op as [key value|key];
      unfold Batch_Put, Batch_Delete, batch_Set, batch_Delete;
      rewrite Hr; simpl.
    + destruct (IH (mkBatch (mkPebbleBatch
                               (ops (batch b) ++ [OpSet key value]) None))
                   eq_refl) as [-> ->].
      simpl. by rewrite <- app_assoc.
    + destruct (IH (mkBatch (mkPebbleBatch
                               (ops (batch b) ++ [OpDelete key]) None))
                   eq_refl) as [-> ->].
      simpl. by rewrite <- app_assoc.
Qed.

Lemma write_each_cells (d : Datastore) (l : list BatchOp) :
  writeErr (db d) = None ->
  write_each d l =
  (with_db (with_cells (foldl apply_op (cells (db d)) l) (db d)) d, None).
Proof.
  revert d. induction l as [|op l IH]; intros d Hw; simpl.
  - by destruct d as [[]].
  - destruct op as [key value|key]; unfold Put, Delete, db_Set, db_Delete;
      rewrite Hw; simpl; by rewrite IH.
Qed.

Lemma last_op_on_snoc (key : bytes) (l : list BatchOp) (op : BatchOp) :
  last_op_on key (l ++ [op]) =
  if decide (op_key op = key) then Some op else last_op_on key l.
Proof.
  unfold last_op_on. rewrite filter_app, filter_cons, filter_nil.
  destruct (decide (op_key op = key)).
  - by rewrite last_snoc.
  - by rewrite app_nil_r.
Qed.

(** The cell of a key after a list of operations is decided by the
    last operation on the key. *)
Lemma cells_get_foldl (key : bytes) (cs : list Cell) (l : list BatchOp) :
  cells_get key (foldl apply_op cs l) =
  match last_op_on key l with
  | Some (OpSet _ value) => Some (mkCell key (inl value) None)
  | Some (OpDelete _) => None
  | None => cells_get key cs
  end.
Proof.
  induction l as [|op l IH] using rev_ind; [done|].
  rewrite BatchFacts.foldl_snoc, last_op_on_snoc.
  destruct (decide (op_key op = key)) as [<-|Hne].
  - destruct op as [k v|k]; simpl.
    + apply BatchFacts.cells_get_set.
    + apply BatchFacts.cells_get_delete.
  - rewrite <- IH. destruct op as [k v|k]; simpl in *.
    + by apply StoreFacts.cells_get_set_other.
    + by apply StoreFacts.cells_get_delete_other.
Qed.

End BatchSequenceFacts.

(** X3.  On a datastore whose engine takes writes, a batch to which a
    list of operations is added with [Batch.Put] and [Batch.Delete]
    takes them all in order; its [Commit] leaves the datastore as the
    same operations leave it when done one by one with [Put] and
    [Delete].  Afterwards [Get] of a key returns the value of the last
    [Put] on it in the list, the not-found error if the last operation
    on it is a [Delete], and what it returned before if the list has no
    operation on the key. *)
Theorem Batch_Commit_as_sequence (d : Datastore) (l : list BatchOp) :
  writeErr (db d) = None ->
  let b := fst (Batch_add (fst (Datastore_Batch d)) l) in
  snd (Batch_add (fst (Datastore_Batch d)) l) = None /\
  ops (batch b) = l /\
  Batch_Commit d b = write_each d l /\
  snd (write_each d l) = None /\
  (forall key,
     Get (fst (Batch_Commit d b)) key =
     match last_op_on key l with
     | Some (OpSet _ value) => inl value
     | Some (OpDelete _) => inr ErrNotFound
     | None => Get d key
     end).
Proof.
  intros Hw b.
  destruct (BatchSequenceFacts.Batch_add_ops (fst (Datastore_Batch d)) l)
    as [Herr Hops]; [simpl; exact Hw|].
  change (ops (batch (fst (Datastore_Batch d))) ++ l) with l in Hops.
  fold b in Hops.
  assert (Batch_Commit d b =
          (with_db (with_cells (foldl apply_op (cells (db d)) l) (db d)) d,
           None)) as Hcommit.
  { unfold Batch_Commit, batch_Commit. by rewrite Hw, Hops. }
  rewrite Hcommit, (BatchSequenceFacts.write_each_cells d l Hw).
  repeat split; try done.
  intros key. simpl. unfold Get. rewrite StoreFacts.get_cells.
  rewrite BatchSequenceFacts.cells_get_foldl.
  destruct (last_op_on key l) as [[k v|k]|]; try done.
  unfold get, db_Get. by destruct (cells_get key (cells (db d))).
Qed.

Lemma Batch_Commit_as_sequence_witness :
  let d := NewDatastore Sample.sampleDB in
  let l := [OpSet (Sample.bs "/a/1") (Sample.bs "p");
            OpDelete (Sample.bs "/a/2");
            OpSet (Sample.bs "/a/1") (Sample.bs "q")] in
  let d' := fst (Batch_Commit d (fst (Batch_add (fst (Datastore_Batch d)) l))) in
  Get d' (Sample.bs "/a/1") = inl (Sample.bs "q") /\
  Get d' (Sample.bs "/a/2") = inr ErrNotFound /\
  Get d' (Sample.bs "/b/1") = inl (Sample.bs "z").
Proof.
  intros d l d'.
  destruct (Batch_Commit_as_sequence d l eq_refl) as (_ & _ & _ & _ & Hget).
  split; [|split]; subst d'; rewrite Hget; reflexivity.
Defined.

(** ** The queries that the planner rejects *)

Module QueryEffectFacts.

Section WithLibrary.

Context `{GoDatastore}.
Variable consumer : Consumer.

Lemma baseOrderLoop_error (orders os : list Order) (err : Err) :
  baseOrderLoop orders None os = inr err ->
  err = ErrIncompatibleOrders orders /\
  exists l1 x l2, os = l1 ++ x :: l2 /\ isKeyOrder x = true /\ l2 <> [].
Proof.
  induction os as [|o os IH]; [done|].
  rewrite PlannerFacts.baseOrderLoop_step.
  destruct (isKeyOrder o) eqn:Ho.
  - destruct os as [|o' os]; [done|]. simpl. intros [= <-].
    split; [done|]. by exists [], o, (o' :: os).
  - intros Hloop. destruct (IH Hloop) as (-> & l1 & x & l2 & -> & Hx & Hl2).
    split; [done|]. by exists (o :: l1), x, l2.
Qed.

Lemma plan_error (orders : list Order) (err : Err) :
  plan orders = PlanError err ->
  err = ErrIncompatibleOrders orders /\
  exists l1 x l2, orders = l1 ++ x :: l2 /\ isKeyOrder x = true /\ l2 <> [].
Proof.
  destruct orders as [|o [|o' os]]; [done| |].
  - simpl. by destruct (isKeyAscending o), (isKeyDescending o).
  - unfold plan.
    destruct (baseOrderLoop _ _ _) as [b|e] eqn:Hloop; [done|].
    intros [= <-]. by apply baseOrderLoop_error.
Qed.

End WithLibrary.

End QueryEffectFacts.

(** ** [Query] at its return, plan by plan *)

Module ReturnFacts.

Section WithLibrary.

Context `{GoDatastore}.

Local Abbreviation Self :=
  (Datastore -> query.Query -> Datastore * (Handle + Err)).

Lemma Query_call_refused (d : Datastore) (q : query.Query) (err : Err) :
  newIterErr (db d) = Some err -> Query_call d q = (d, inr err).
Proof.
  intros Herr. unfold Query_call, Query_callF, NewIterWithContext.
  rewrite Herr. by destruct d.
Qed.

(** A native plan: one cursor, opened and positioned; closed at once
    if it shows nothing, and left to the goroutine otherwise. *)
Lemma Query_callF_native (self : Self) (d : Datastore) (q : query.Query)
      (back : bool) :
  plan (Orders q) = PlanNative back -> newIterErr (db d) = None ->
  Query_callF self d q =
  let id := nextIter (db d) in
  let pos := if back then EvLast id else EvFirst id in
  let iter := mkIterator id (scanned (db d) q) (shown (db d) q) in
  if negb (iter_Valid iter) then
    (after_cursors d [EvNewIter id; pos; EvClose id] 1,
     inl (Complete (ResultsWithEntries q [])))
  else
    (wg_Add 1 (after_cursors d [EvNewIter id; pos] 1), inl (Process q iter)).
Proof.
  intros Hplan Herr. apply RunFacts.plan_native in Hplan as [Hn <-].
  unfold Query_callF, NewIterWithContext. rewrite Herr.
  unfold shown, scanned, scan_options, after_cursors. rewrite Herr. simpl.
  set (cs := filter _ (cells (db d))).
  assert (forall (back : bool),
    startQuery
      (with_db
         (log_event ((if back then EvLast else EvFirst) (nextIter (db d)))
            (mkDB (cells (db d)) None (writeErr (db d))
                  (iterlog (db d) ++ [EvNewIter (nextIter (db d))])
                  (S (nextIter (db d))) (flushes (db d)) (closes (db d))))
         (with_db
            (mkDB (cells (db d)) None (writeErr (db d))
                  (iterlog (db d) ++ [EvNewIter (nextIter (db d))])
                  (S (nextIter (db d))) (flushes (db d)) (closes (db d))) d))
      q (mkIterator (nextIter (db d)) cs (if back then reverse cs else cs)) =
    if negb (iter_Valid (mkIterator (nextIter (db d)) cs
                           (if back then reverse cs else cs)))
    then
      (mkDatastore
         (mkDB (cells (db d)) None (writeErr (db d))
               (iterlog (db d) ++
                [EvNewIter (nextIter (db d));
                 (if back then EvLast else EvFirst) (nextIter (db d));
                 EvClose (nextIter (db d))])
               (S (nextIter (db d))) (flushes (db d)) (closes (db d)))
         (status d) (closing d) (wg d),
       inl (Complete (ResultsWithEntries q [])))
    else
      (wg_Add 1
         (mkDatastore
            (mkDB (cells (db d)) None (writeErr (db d))
                  (iterlog (db d) ++
                   [EvNewIter (nextIter (db d));
                    (if back then EvLast else EvFirst) (nextIter (db d))])
                  (S (nextIter (db d))) (flushes (db d)) (closes (db d)))
            (status d) (closing d) (wg d)),
       inl (Process q (mkIterator (nextIter (db d)) cs
                         (if back then reverse cs else cs)))))
    as Hstart.
  { intros back. unfold startQuery, iter_Valid, iter_Close, log_event, with_db.
    simpl. destruct (if back then reverse cs else cs) as [|c0 rest].
    - simpl. by rewrite <- !app_assoc.
    - simpl. unfold wg_Add. simpl. by rewrite <- !app_assoc. }
  destruct (Orders q) as [|o [|o' os]]; [|destruct o|]; try done.
  - apply (Hstart false).
  - apply (Hstart false).
  - apply (Hstart false).
  - pose proof (Hstart true) as Hb. simpl in Hb. by rewrite Hb.
  - pose proof (Hstart true) as Hb. simpl in Hb. by rewrite Hb.
Qed.

Lemma native_plan (os : list Order) :
  native os = true -> plan os = PlanNative (descending os).
Proof.
  destruct os as [|o [|o' os]]; [done| |done].
  by destruct o.
Qed.

Lemma Query_call_error (d : Datastore) (q : query.Query) (err : Err) :
  plan (Orders q) = PlanError err -> newIterErr (db d) = None ->
  Query_call d q = (after_cursors d [EvNewIter (nextIter (db d))] 1, inr err).
Proof.
  intros Hplan Herr. unfold Query_call, Query_callF, NewIterWithContext.
  rewrite Herr. unfold after_cursors. rewrite Herr.
  destruct (Orders q) as [|o [|o' os]].
  - done.
  - by destruct o.
  - unfold plan in Hplan. cbv zeta.
    destruct (baseOrderLoop _ _ _) as [b|e]; [done|].
    by injection Hplan as ->.
Qed.

(** The fallback: the cursor of the call is closed when the call
    returns; the cursor of the base query is closed by then only if it
    shows nothing, and is left to the goroutine otherwise. *)
Lemma Query_call_fallback (d : Datastore) (q : query.Query)
      (base : option Order) :
  plan (Orders q) = PlanFallback base -> newIterErr (db d) = None ->
  Query_call d q =
  let id := nextIter (db d) in
  let bq := baseQuery_of q base in
  let pos := if descending (Orders bq) then EvLast (S id) else EvFirst (S id) in
  let iter := mkIterator (S id) (scanned (db d) bq) (shown (db d) bq) in
  if negb (iter_Valid iter) then
    (after_cursors d
       [EvNewIter id; EvNewIter (S id); pos; EvClose (S id); EvClose id] 2,
     inl (Applied (naiveQuery_of q) q (Complete (ResultsWithEntries bq []))))
  else
    (wg_Add 1
       (after_cursors d [EvNewIter id; EvNewIter (S id); pos; EvClose id] 2),
     inl (Applied (naiveQuery_of q) q (Process bq iter))).
Proof.
  intros Hplan Herr.
  pose proof (RunFacts.baseQuery_native q base
                (fun o Hb => RunFacts.plan_fallback_base _ _ o Hplan Hb))
    as Hnat.
  apply native_plan in Hnat.
  assert (forall d1 iter,
    db d1 = mkDB (cells (db d)) None (writeErr (db d))
                 (iterlog (db d) ++ [EvNewIter (nextIter (db d))])
                 (S (nextIter (db d))) (flushes (db d)) (closes (db d)) ->
    status d1 = status d -> closing d1 = closing d -> wg d1 = wg d ->
    iid iter = nextIter (db d) ->
    (let '(d2, r) :=
       inefficientOrderQuery_call (Query_callF unreachable_call) d1 q base in
     (with_db (iter_Close (db d2) iter) d2, r)) =
    (let id := nextIter (db d) in
     let bq := baseQuery_of q base in
     let pos :=
       if descending (Orders bq) then EvLast (S id) else EvFirst (S id) in
     let iter := mkIterator (S id) (scanned (db d) bq) (shown (db d) bq) in
     if negb (iter_Valid iter) then
       (after_cursors d
          [EvNewIter id; EvNewIter (S id); pos; EvClose (S id); EvClose id] 2,
        inl (Applied (naiveQuery_of q) q (Complete (ResultsWithEntries bq []))))
     else
       (wg_Add 1
          (after_cursors d
             [EvNewIter id; EvNewIter (S id); pos; EvClose id] 2),
        inl (Applied (naiveQuery_of q) q (Process bq iter))))) as Hfall.
  { intros d1 iter Hdb Hst Hcl Hwg Hid. unfold inefficientOrderQuery_call.
    fold (baseQuery_of q base).
    rewrite (Query_callF_native unreachable_call d1 (baseQuery_of q base)
               _ Hnat) by (by rewrite Hdb).
    cbv zeta.
    replace (scanned (db d1) (baseQuery_of q base))
      with (scanned (db d) (baseQuery_of q base))
      by (unfold scanned; by rewrite Hdb).
    replace (shown (db d1) (baseQuery_of q base))
      with (shown (db d) (baseQuery_of q base))
      by (unfold shown, scanned; by rewrite Hdb).
    rewrite Hdb. cbn [nextIter].
    destruct (negb (iter_Valid _)).
    - unfold after_cursors, iter_Close, log_event, with_db, naiveQuery_of.
      simpl. rewrite Hdb, Hst, Hcl, Hwg, Hid, Herr. simpl.
      by rewrite <- !app_assoc.
    - unfold after_cursors, iter_Close, log_event, with_db, naiveQuery_of,
        wg_Add.
      simpl. rewrite Hdb, Hst, Hcl, Hwg, Hid, Herr. simpl.
      by rewrite <- !app_assoc. }
  unfold Query_call. unfold Query_callF at 1. unfold NewIterWithContext.
  rewrite Herr.
  destruct (Orders q) as [|o [|o' os]] eqn:Ho.
  - done.
  - destruct o; simpl in Hplan; try done. injection Hplan as <-.
    by apply Hfall.
  - unfold plan in Hplan. cbv zeta.
    destruct (baseOrderLoop _ _ _) as [b|e] eqn:Hloop; [|done].
    injection Hplan as <-. by apply Hfall.
Qed.

End WithLibrary.

End ReturnFacts.

(** X4.  A call of [Query] changes no data and registers its
    goroutine.  The call itself leaves the stored cells, the engine's
    flush and close counts, the close-once flag and the closing channel
    as they were.  It raises the wait group by one exactly when it
    hands back results fed by a goroutine, and leaves it as it was when
    it returns an error or complete results.  The goroutine, run to its
    end, lowers the wait group again, whatever the consumer did: the
    wait group is then as it was before the call, nothing else has
    changed, and the results are those of [Query], the call taken
    together with its goroutine. *)
Theorem Query_registers_its_goroutine `{GoDatastore}
        (consumer : Consumer) (d : Datastore) (q : query.Query) :
  let d1 := fst (Query_call d q) in
  (cells (db d1) = cells (db d) /\
   flushes (db d1) = flushes (db d) /\ closes (db d1) = closes (db d) /\
   status d1 = status d /\ closing d1 = closing d) /\
  match snd (Query_call d q) with
  | inr err => wg d1 = wg d /\ snd (Query consumer d q) = inr err
  | inl h =>
      wg d1 = wg d + match streaming_cursor h with Some _ => 1 | None => 0 end /\
      let d2 := fst (finish consumer h d1) in
      wg d2 = wg d /\
      cells (db d2) = cells (db d) /\
      flushes (db d2) = flushes (db d) /\ closes (db d2) = closes (db d) /\
      status d2 = status d /\ closing d2 = closing d /\
      snd (Query consumer d q) = inl (snd (finish consumer h d1))
  end.
Proof.
  intros d1. subst d1.
  destruct (newIterErr (db d)) as [err|] eqn:Herr.
  { rewrite (ReturnFacts.Query_call_refused d q err Herr),
      (RunFacts.Query_refused consumer d q err Herr). done. }
  destruct (plan (Orders q)) as [back|base|err] eqn:Hplan.
  - unfold Query_call.
    rewrite (ReturnFacts.Query_callF_native _ d q back Hplan Herr).
    rewrite (RunFacts.Query_native_plan consumer d q back Hplan Herr).
    cbv zeta. unfold iter_Valid. simpl ahead.
    destruct (shown (db d) q) as [|c cs]; simpl.
    + unfold ResultsWithEntries. simpl. repeat split; lia.
    + unfold goroutine. simpl ahead.
      destruct (streamer _ _ _ _ _ _ _ _) as [o ch]. simpl.
      repeat split; lia.
  - rewrite (ReturnFacts.Query_call_fallback d q base Hplan Herr).
    rewrite (RunFacts.Query_fallback_plan consumer d q base Hplan Herr).
    cbv zeta. unfold iter_Valid. simpl ahead.
    assert (Offset (baseQuery_of q base) = 0 /\
            Limit (baseQuery_of q base) = 0 /\
            Filters (baseQuery_of q base) = Filters q /\
            KeysOnly (baseQuery_of q base) = KeysOnly q /\
            ReturnsSizes (baseQuery_of q base) = ReturnsSizes q)
      as (Ho & Hl & Hf & Hk & Hr) by (by destruct base).
    destruct (shown (db d) (baseQuery_of q base)) as [|c cs]; simpl.
    + unfold ResultsWithEntries, ResultsReplaceQuery. simpl.
      repeat split; lia.
    + unfold goroutine, ResultsReplaceQuery. simpl ahead.
      rewrite Ho, Hl, Hf, Hk, Hr.
      destruct (streamer _ _ _ _ _ _ _ _) as [o ch]. simpl.
      repeat split; lia.
  - rewrite (ReturnFacts.Query_call_error d q err Hplan Herr),
      (RunFacts.Query_error_plan consumer d q err Hplan Herr). done.
Qed.

(** X5.  The life of the cursors of a call that returns results.  The
    call opens at most two cursors.  The call itself does not close the
    cursor of the goroutine that feeds the results, if there is such a
    goroutine: it has opened that cursor once and leaves it open.
    Every other cursor that the call opened it has closed, once, when
    it returns; in the fallback that is the cursor of the call, closed
    without waiting for the goroutine of the base query.  The cursor
    of the goroutine is closed by the goroutine when it comes to its
    end, whatever the consumer did: once, and nothing else is done to
    the engine's cursors. *)
Theorem Query_cursor_lifetime `{GoDatastore}
        (consumer : Consumer) (d : Datastore) (q : query.Query) (h : Handle) :
  snd (Query_call d q) = inl h ->
  let d1 := fst (Query_call d q) in
  exists evs,
    iterlog (db d1) = iterlog (db d) ++ evs /\
    (cursors_opened evs <= 2)%nat /\
    match streaming_cursor h with
    | Some id =>
        opened id evs = 1%nat /\ released id evs = 0%nat /\
        (forall id', id' <> id ->
                     opened id' evs = released id' evs /\
                     (opened id' evs <= 1)%nat) /\
        iterlog (db (fst (finish consumer h d1))) =
          iterlog (db d1) ++ [EvClose id]
    | None =>
        (forall id, opened id evs = released id evs /\
                    (opened id evs <= 1)%nat) /\
        iterlog (db (fst (finish consumer h d1))) = iterlog (db d1)
    end.
Proof.
  intros Hres d1. subst d1.
  destruct (newIterErr (db d)) as [err|] eqn:Herr.
  { by rewrite (ReturnFacts.Query_call_refused d q err Herr) in Hres. }
  destruct (plan (Orders q)) as [back|base|err] eqn:Hplan.
  - unfold Query_call in *.
    rewrite (ReturnFacts.Query_callF_native _ d q back Hplan Herr) in Hres |- *.
    cbv zeta in Hres |- *. unfold iter_Valid in *. simpl ahead in *.
    destruct (shown (db d) q) as [|c cs]; simpl in Hres; injection Hres as <-;
      simpl; (eexists; split; [done|]);
      unfold opened, released, cursors_opened.
    + destruct back; (split; [|split; [intros id|done]]);
        rewrite !filter_cons, !filter_nil;
        repeat case_decide; simplify_eq; simpl in *; first [lia | done].
    + unfold goroutine. simpl ahead.
      destruct (streamer _ _ _ _ _ _ _ _) as [o ch]. simpl.
      destruct back;
        (split; [|split; [|split; [|split; [intros id' Hid|done]]]]);
        rewrite !filter_cons, !filter_nil;
        repeat case_decide; simplify_eq; simpl in *; first [lia | done].
  - rewrite (ReturnFacts.Query_call_fallback d q base Hplan Herr) in Hres |- *.
    cbv zeta in Hres |- *. unfold iter_Valid in *. simpl ahead in *.
    destruct (shown (db d) (baseQuery_of q base)) as [|c cs];
      simpl in Hres; injection Hres as <-;
      simpl; (eexists; split; [done|]);
      unfold opened, released, cursors_opened.
    + destruct (descending _); (split; [|split; [intros id|done]]);
        rewrite !filter_cons, !filter_nil;
        repeat case_decide; simplify_eq; simpl in *; first [lia | done].
    + unfold goroutine. simpl ahead.
      destruct (streamer _ _ _ _ _ _ _ _) as [o ch]. simpl.
      destruct (descending _);
        (split; [|split; [|split; [|split; [intros id' Hid|done]]]]);
        rewrite !filter_cons, !filter_nil;
        repeat case_decide; simplify_eq; simpl in *; first [lia | done].
  - by rewrite (ReturnFacts.Query_call_error d q err Hplan Herr) in Hres.
Qed.

Lemma Query_cursor_lifetime_witness :
  let q := with_Orders [Sample.byValueSize] Sample.sampleQuery in
  let gone : Consumer := fun n => if (n =? 1)%nat then Gone true else Received in
  let r := Query_call (H := Reference.reference) (NewDatastore Sample.sampleDB) q in
  iterlog (db (fst r)) = [EvNewIter 0; EvNewIter 1; EvFirst 1; EvClose 0] /\
  match snd r with
  | inl h =>
      iterlog (db (fst (finish (H := Reference.reference) gone h (fst r)))) =
      [EvNewIter 0; EvNewIter 1; EvFirst 1; EvClose 0; EvClose 1]
  | inr _ => False
  end.
Proof.
  intros q gone r.
  destruct (snd r) as [h|err] eqn:Hr; [|discriminate Hr].
  destruct (Query_cursor_lifetime (H := Reference.reference) gone
              (NewDatastore Sample.sampleDB) q h Hr)
    as (evs & Hlog & _ & Hlife).
  split; [reflexivity|].
  injection Hr as <-. exact (proj2 (proj2 (proj2 Hlife))).
Defined.


(** X6.  [Query] fails exactly for the queries that the planner
    rejects: when the engine hands out its cursors, [Query] returns an
    error if and only if some key order stands before the last place
    in the list of orders, and the error is then the incompatible-orders
    error with that list. *)
Theorem Query_fails_iff `{GoDatastore}
        (consumer : Consumer) (d : Datastore) (q : query.Query) :
  newIterErr (db d) = None ->
  ((exists err, snd (Query consumer d q) = inr err) <->
   (exists l1 x l2, Orders q = l1 ++ x :: l2 /\
                    isKeyOrder x = true /\ l2 <> [])) /\
  (forall err, snd (Query consumer d q) = inr err ->
               err = ErrIncompatibleOrders (Orders q)).
Proof.
  intros Herr.
  assert (forall err, snd (Query consumer d q) = inr err ->
            plan (Orders q) = PlanError err) as Hinv.
  { intros err. destruct (plan (Orders q)) as [back|base|e] eqn:Hplan.
    - by rewrite (RunFacts.Query_native_plan consumer d q back Hplan Herr).
    - by rewrite (RunFacts.Query_fallback_plan consumer d q base Hplan Herr).
    - rewrite (RunFacts.Query_error_plan consumer d q e Hplan Herr).
      simpl. by intros [= ->]. }
  split; [split|].
  - intros [err Hq]. by apply (QueryEffectFacts.plan_error _ err), Hinv.
  - intros (l1 & x & l2 & Ho & Hx & Hl2).
    exists (ErrIncompatibleOrders (Orders q)).
    rewrite (RunFacts.Query_error_plan consumer d q
               (ErrIncompatibleOrders (Orders q))); [done| |done].
    assert (baseOrderLoop (Orders q) None (Orders q) =
            inr (ErrIncompatibleOrders (Orders q))) as Hloop.
    { rewrite Ho at 2. by apply PlannerFacts.baseOrderLoop_early_key. }
    unfold plan. rewrite Hloop, Ho.
    destruct l1 as [|y [|z l1]]; destruct l2; done.
  - intros err Hq. by apply (QueryEffectFacts.plan_error _ err), Hinv.
Qed.

Lemma Query_fails_iff_witness :
  exists err,
    snd (Query Sample.always (NewDatastore Sample.sampleDB)
               (with_Orders [OrderByKeyDescendingPtr; Sample.byValueSize;
                             Sample.byValueSize] Sample.sampleQuery))
    = inr err.
Proof.
  apply (Query_fails_iff Sample.always (NewDatastore Sample.sampleDB)
           (with_Orders [OrderByKeyDescendingPtr; Sample.byValueSize;
                         Sample.byValueSize] Sample.sampleQuery) eq_refl).
  exists [], OrderByKeyDescendingPtr, [Sample.byValueSize; Sample.byValueSize].
  repeat split; discriminate.
Defined.

(** ** The range of a scan *)

Module ScanFacts.

Import BytesFacts.

Lemma compare_antisym (a b : bytes) :
  Bytes.compare b a = CompOpp (Bytes.compare a b).
Proof.
  revert b. induction a as [|x a IH]; intros [|y b]; simpl; try done.
  rewrite (N.compare_antisym (Byte.to_N x) (Byte.to_N y)).
  destruct (Byte.to_N x ?= Byte.to_N y)%N; simpl; [apply IH|done|done].
Qed.

Lemma HasPrefix_refl (p : bytes) : HasPrefix p p = true.
Proof. apply HasPrefix_app. exists []. by rewrite app_nil_r. Qed.

Lemma copy_make (val : bytes) : copy (make (length val)) val = val.
Proof.
  unfold copy, make. rewrite length_replicate, Nat.min_id.
  rewrite take_ge, drop_ge by (rewrite ?length_replicate; lia).
  by rewrite app_nil_r.
Qed.

Lemma omap_reverse {A B} (f : A -> option B) (l : list A) :
  omap f (reverse l) = reverse (omap f l).
Proof.
  induction l as [|x l IH]; [done|].
  rewrite reverse_cons, omap_app, IH. simpl.
  destruct (f x); simpl.
  - by rewrite reverse_cons.
  - by rewrite app_nil_r.
Qed.

End ScanFacts.

(** X7.  The upper bound is tight.  Whenever [Query]'s closure finds
    an upper bound for a prefix, the bound is not empty and not longer
    than the prefix, the prefix is below it, and it is the least byte
    string above all keys with the prefix: any byte string that is
    above every such key is at or above the bound. *)
Theorem UpperBound_tight (P u : bytes) :
  UpperBound P = Some u ->
  u <> [] /\ (length u <= length P)%nat /\ Bytes.lt P u /\
  (forall s, (forall K, HasPrefix K P = true -> Bytes.lt K s) ->
             Bytes.le u s).
Proof.
  intros Hu.
  pose proof (BoundFacts.range_front P u) as Hrange.
  rewrite BoundFacts.UpperBound_front in Hu.
  assert (u <> [] /\ (length u <= length P)%nat) as [Hne Hlen].
  { clear Hrange. revert u Hu. induction P as [|b P IH]; intros u; [done|].
    simpl. destruct (upper_from_front P) as [u'|].
    - intros [= <-]. destruct (IH u' eq_refl). simpl. split; [done | lia].
    - destruct (Byte.eqb b xff); [done|]. intros [= <-]. simpl.
      split; [done | lia]. }
  split; [done|]. split; [done|]. split.
  - apply (Hrange P Hu), ScanFacts.HasPrefix_refl.
  - intros s Habove. unfold Bytes.le. intros Hgt.
    assert (Bytes.lt s u) as Hsu.
    { unfold Bytes.lt. rewrite (ScanFacts.compare_antisym u s), Hgt. done. }
    assert (Bytes.le P s) as HPs.
    { unfold Bytes.le.
      pose proof (Habove P (ScanFacts.HasPrefix_refl P)) as HP.
      unfold Bytes.lt in HP. by rewrite HP. }
    pose proof (proj2 (Hrange s Hu) (conj HPs Hsu)) as Hpre.
    pose proof (Habove s Hpre) as Hss. unfold Bytes.lt in Hss.
    by rewrite BytesFacts.compare_refl in Hss.
Qed.

Lemma UpperBound_tight_witness :
  Bytes.lt (Sample.bs "/a/") (Sample.bs "/a0") /\
  (length (Sample.bs "/a0") <= length (Sample.bs "/a/"))%nat.
Proof.
  destruct (UpperBound_tight (Sample.bs "/a/") (Sample.bs "/a0") eq_refl)
    as (_ & Hlen & Hlt & _).
  split; [exact Hlt | exact Hlen].
Defined.

(** X8.  Every scan of [Query] is bounded.  For every query the lower
    bound given to the cursor ends in a slash and the upper bound is
    the lower bound with that slash replaced by the next byte, ['0'];
    the cursor is given exactly the stored cells whose key starts with
    the lower bound. *)
Theorem Query_scan_is_bounded `{GoDatastore} (x : DB) (q : query.Query) :
  exists pre,
    LowerBound (scan_options q) = pre ++ ["/"%byte] /\
    UpperBoundOpt (scan_options q) = Some (pre ++ ["0"%byte]) /\
    (NewKey_String (Prefix q) = ["/"%byte] -> pre = []) /\
    (NewKey_String (Prefix q) <> ["/"%byte] -> pre = NewKey_String (Prefix q)) /\
    (forall c, c ∈ scanned x q <->
               c ∈ cells x /\ HasPrefix (ckey c) (pre ++ ["/"%byte]) = true).
Proof.
  assert (exists pre,
            LowerBound (scan_options q) = pre ++ ["/"%byte] /\
            (NewKey_String (Prefix q) = ["/"%byte] -> pre = []) /\
            (NewKey_String (Prefix q) <> ["/"%byte] ->
             pre = NewKey_String (Prefix q))) as (pre & Hlow & Hroot & Hother).
  { unfold scan_options. simpl. unfold slash.
    destruct (decide (NewKey_String (Prefix q) = ["/"%byte])) as [Heq|Hne].
    - exists []. by rewrite Heq.
    - by exists (NewKey_String (Prefix q)). }
  exists pre. split; [done|]. split.
  - rewrite RunFacts.UpperBound_front_of_options, Hlow.
    rewrite BoundFacts.UpperBound_front.
    by apply (BoundFacts.upper_from_front_last pre "/"%byte 0).
  - split; [done|]. split; [done|].
    intros c. rewrite RunFacts.scanned_prefix. by rewrite Hlow.
Qed.

(** X9.  No order is ascending key order.  A query whose one order is
    the ascending key order (as a value or as a pointer) leaves the
    datastore in the same state and delivers the same events as the
    same query without orders, for every consumer. *)
Theorem Query_ascending_is_default `{GoDatastore}
        (consumer : Consumer) (d : Datastore) (q : query.Query) (o : Order) :
  isKeyAscending o = true ->
  fst (Query consumer d (with_Orders [o] q)) =
  fst (Query consumer d (with_Orders [] q)) /\
  events_of (snd (Query consumer d (with_Orders [o] q))) =
  events_of (snd (Query consumer d (with_Orders [] q))).
Proof.
  intros Ho. destruct (newIterErr (db d)) as [err|] eqn:Herr.
  - by rewrite !(RunFacts.Query_refused consumer d _ err Herr).
  - rewrite (QueryFacts.Query_native_run consumer d (with_Orders [o] q))
      by (destruct o; done).
    rewrite (QueryFacts.Query_native_run consumer d (with_Orders [] q))
      by done.
    cbv zeta. unfold shown. simpl.
    replace (isKeyDescending o) with false by (by destruct o). done.
Qed.

Lemma Query_ascending_is_default_witness :
  events_of (snd (Query Sample.always (NewDatastore Sample.sampleDB)
                        (with_Orders [OrderByKeyPtr] Sample.sampleQuery))) =
  inl [ResultOfEntry (Sample.entry "/a/1" "x");
       ResultOfEntry (Sample.entry "/a/2" "y")].
Proof.
  destruct (Query_ascending_is_default
              Sample.always (NewDatastore Sample.sampleDB)
              Sample.sampleQuery OrderByKeyPtr eq_refl) as [_ ->].
  reflexivity.
Defined.

(** X10.  Descending is ascending reversed.  When the engine hands out
    its cursors and the consumer takes every event, a query without
    offset and limit whose one order is the descending key order
    delivers the entries of the same query without orders, in reverse. *)
Theorem Query_descending_is_reverse `{GoDatastore}
        (consumer : Consumer) (d : Datastore) (q : query.Query) (o : Order) :
  isKeyDescending o = true -> receiving consumer ->
  newIterErr (db d) = None -> Offset q <= 0 -> Limit q <= 0 ->
  exists res res0,
    snd (Query consumer d (with_Orders [o] q)) = inl res /\
    snd (Query consumer d (with_Orders [] q)) = inl res0 /\
    entries_of (REvents res) = reverse (entries_of (REvents res0)).
Proof.
  intros Ho Hrecv Herr Hk Hn.
  rewrite (QueryFacts.Query_native_run consumer d (with_Orders [o] q))
    by (done || by destruct o).
  rewrite (QueryFacts.Query_native_run consumer d (with_Orders [] q)) by done.
  cbv zeta. do 2 eexists. split; [reflexivity|]. split; [reflexivity|].
  unfold shown. simpl. rewrite Ho.
  set (cs := scanned (db d) (with_Orders [] q)).
  change (scanned (db d) (with_Orders [o] q)) with cs.
  destruct (StreamerFacts.streamer_received consumer (Offset q) (Limit q)
              (Filters q) (KeysOnly q) (ReturnsSizes q) Hrecv (reverse cs))
    as (ch & -> & Hent & _).
  destruct (StreamerFacts.streamer_received consumer (Offset q) (Limit q)
              (Filters q) (KeysOnly q) (ReturnsSizes q) Hrecv cs)
    as (ch0 & -> & Hent0 & _).
  simpl. rewrite Hent, Hent0.
  replace (Limit q <=? 0) with true by (symmetry; apply Z.leb_le; lia).
  replace (Z.to_nat (Offset q)) with 0%nat by lia.
  rewrite !drop_0. unfold candidates. apply ScanFacts.omap_reverse.
Qed.

Lemma Query_descending_is_reverse_witness :
  exists res,
    snd (Query Sample.always (NewDatastore Sample.sampleDB)
               (with_Orders [OrderByKeyDescending] Sample.sampleQuery))
    = inl res /\
    entries_of (REvents res) =
    [Sample.entry "/a/2" "y"; Sample.entry "/a/1" "x"].
Proof.
  destruct (Query_descending_is_reverse
              Sample.always (NewDatastore Sample.sampleDB)
              Sample.sampleQuery OrderByKeyDescending)
    as (res & res0 & Hres & Hres0 & Hrev).
  - reflexivity.
  - intros n. reflexivity.
  - reflexivity.
  - simpl. lia.
  - simpl. lia.
  - exists res. split; [exact Hres|]. rewrite Hrev.
    injection Hres0 as <-. reflexivity.
Defined.

(** X11.  What [createEntry] makes of a cell.  The key is always the
    key under the cursor.  Where the value can be read, the entry holds
    a copy equal to the value unless the query is keys-only, and the
    length of the value if sizes are wanted (zero otherwise).  Where the
    value cannot be read, [createEntry] fails with the error of the
    read, except for a keys-only query that wants no sizes: that one
    never reads the value and always gets its entry. *)
Theorem createEntry_projection (keysOnly returnSizes : bool) (c : Cell) :
  (forall val, cvalue c = inl val ->
     createEntry keysOnly returnSizes c =
     inl (mkEntry (ckey c)
                  (if keysOnly then None else Some val)
                  (if returnSizes then Z.of_nat (length val) else 0))) /\
  (forall err, cvalue c = inr err ->
     createEntry keysOnly returnSizes c =
     if keysOnly && negb returnSizes
     then inl (mkEntry (ckey c) None 0)
     else inr err) /\
  (forall e, createEntry keysOnly returnSizes c = inl e -> Key e = ckey c).
Proof.
  unfold createEntry. split; [|split].
  - intros val ->. rewrite ScanFacts.copy_make.
    by destruct keysOnly, returnSizes.
  - intros err ->. by destruct keysOnly, returnSizes.
  - destruct (cvalue c) as [val|err]; destruct keysOnly, returnSizes; simpl;
      intros e He; by simplify_eq.
Qed.

Lemma createEntry_projection_witness :
  createEntry true false (mkCell (Sample.bs "/k") (inr (ErrEngine 3)) None) =
  inl (mkEntry (Sample.bs "/k") None 0) /\
  createEntry false true (mkCell (Sample.bs "/k") (inl (Sample.bs "abc")) None) =
  inl (mkEntry (Sample.bs "/k") (Some (Sample.bs "abc")) 3).
Proof.
  split.
  - apply (proj1 (proj2 (createEntry_projection true false
             (mkCell (Sample.bs "/k") (inr (ErrEngine 3)) None)))
             (ErrEngine 3) eq_refl).
  - apply (proj1 (createEntry_projection false true
             (mkCell (Sample.bs "/k") (inl (Sample.bs "abc")) None))
             (Sample.bs "abc") eq_refl).
Defined.

Lemma Query_scan_is_bounded_witness :
  exists pre,
    LowerBound (scan_options Sample.sampleQuery) = pre ++ ["/"%byte] /\
    pre = Sample.bs "/a".
Proof.
  destruct (Query_scan_is_bounded Sample.sampleDB Sample.sampleQuery)
    as (pre & Hlow & _ & _ & Hother & _).
  exists pre. split; [exact Hlow|]. apply Hother. discriminate.
Defined.

(** ** Consumers that go away *)

Module CutFacts.

Section Loops.

Variables (consumer recv : Consumer).
Hypothesis Hrecv : receiving recv.
Variables (offset limit : Z) (filters : list Filter).
Variables (keysOnly returnSizes : bool).

Local Abbreviation skip c := (skipLoop c offset filters keysOnly returnSizes).
Local Abbreviation emit c := (emitLoop c limit filters keysOnly returnSizes).

(** Under a consumer that receives every event the loops run to their
    end and only add to what has been delivered. *)
Lemma emit_appends (cs : list Cell) (sent : Z) (ch : Chan) :
  exists ch' l,
    emit recv sent cs ch = (Some tt, ch') /\
    delivered ch' = delivered ch ++ l.
Proof.
  revert sent ch. induction cs as [|c cs IH]; intros sent ch.
  - exists ch, []. by rewrite app_nil_r.
  - rewrite StreamerFacts.emit_cons.
    destruct ((limit <=? 0) || (sent <? limit));
      [|exists ch, []; by rewrite app_nil_r].
    assert (exists ch1 l1, reportError recv c ch = (Some tt, ch1) /\
                           delivered ch1 = delivered ch ++ l1)
      as (ch1 & l1 & -> & H1).
    { unfold reportError. destruct (cerror c) as [e|].
      - rewrite (StreamerFacts.send_received recv Hrecv). by eexists _, _.
      - exists ch, []. by rewrite app_nil_r. }
    assert (forall s, exists ch' l,
              emit recv s cs ch1 = (Some tt, ch') /\
              delivered ch' = delivered ch ++ l) as Hnext.
    { intros s. destruct (IH s ch1) as (ch' & l & -> & Hl).
      exists ch', (l1 ++ l). by rewrite Hl, H1, app_assoc. }
    destruct (createEntry keysOnly returnSizes c) as [e|e]; [|apply Hnext].
    destruct (doFilter filters && negb (filterFn filters e)); [apply Hnext|].
    rewrite (StreamerFacts.send_received recv Hrecv).
    destruct (IH (sent + 1) (deliver (ResultOfEntry e) ch1))
      as (ch' & l & -> & Hl).
    exists ch', (l1 ++ ResultOfEntry e :: l).
    rewrite Hl. simpl. rewrite H1, <- !app_assoc. done.
Qed.

Lemma skip_appends (cs : list Cell) (skipped : Z) (ch : Chan) :
  exists rest ch' l,
    skip recv skipped cs ch = (Some rest, ch') /\
    delivered ch' = delivered ch ++ l.
Proof.
  revert skipped ch. induction cs as [|c cs IH]; intros skipped ch.
  - exists [], ch, []. by rewrite app_nil_r.
  - rewrite StreamerFacts.skip_cons.
    destruct (skipped <? offset);
      [|exists (c :: cs), ch, []; by rewrite app_nil_r].
    assert (exists ch1 l1, reportError recv c ch = (Some tt, ch1) /\
                           delivered ch1 = delivered ch ++ l1)
      as (ch1 & l1 & -> & H1).
    { unfold reportError. destruct (cerror c) as [e|].
      - rewrite (StreamerFacts.send_received recv Hrecv). by eexists _, _.
      - exists ch, []. by rewrite app_nil_r. }
    assert (forall s, exists rest ch' l,
              skip recv s cs ch1 = (Some rest, ch') /\
              delivered ch' = delivered ch ++ l) as Hnext.
    { intros s. destruct (IH s ch1) as (rest & ch' & l & -> & Hl).
      exists rest, ch', (l1 ++ l). by rewrite Hl, H1, app_assoc. }
    destruct (createEntry keysOnly returnSizes c) as [e|e]; [|apply Hnext].
    destruct (doFilter filters && negb (filterFn filters e)); apply Hnext.
Qed.

(** One send, under the two consumers, from channels that hold the
    same events. *)
Lemma send_cases (r : Result) (ch chR : Chan) :
  delivered ch = delivered chR ->
  (exists ch', sendOrInterrupt consumer r ch = (Some tt, ch') /\
               delivered ch' = delivered (deliver r chR)) \/
  (exists ch' notified,
     sendOrInterrupt consumer r ch = (None, ch') /\
     delivered ch' = delivered chR ++ close_notice notified).
Proof.
  intros Hagree. unfold sendOrInterrupt.
  destruct (consumer (attempts ch)) as [|notified].
  - left. eexists. split; [done|]. simpl. by rewrite Hagree.
  - right. eexists _, notified. split; [done|]. simpl. rewrite Hagree.
    destruct notified; simpl; [done | by rewrite app_nil_r].
Qed.

(** The emitting loop under any consumer, beside the same loop under a
    consumer that receives every event. *)
Lemma emit_beside (cs : list Cell) (sent : Z) (ch chR : Chan) :
  delivered ch = delivered chR ->
  exists chR',
    emit recv sent cs chR = (Some tt, chR') /\
    match emit consumer sent cs ch with
    | (Some _, ch') => delivered ch' = delivered chR'
    | (None, ch') => cut_short (delivered ch') (delivered chR')
    end.
Proof.
  revert sent ch chR. induction cs as [|c cs IH]; intros sent ch chR Hagree.
  - exists chR. done.
  - destruct (decide ((limit <=? 0) || (sent <? limit) = true)) as [Hopen|Hshut].
    2:{ exists chR. rewrite !StreamerFacts.emit_cons.
        apply not_true_is_false in Hshut. by rewrite Hshut. }
    assert (limit <= 0 \/ sent < limit) as Hwin.
    { apply orb_true_iff in Hopen as [Hl|Hs]; [left|right]; lia. }
    (* the error of the cursor, if any, is sent first *)
    assert (forall ch1 chR1,
              delivered ch1 = delivered chR1 ->
              exists chR',
                (match createEntry keysOnly returnSizes c with
                 | inr _ => emit recv sent cs chR1
                 | inl entry =>
                     if doFilter filters && negb (filterFn filters entry)
                     then emit recv sent cs chR1
                     else
                       match sendOrInterrupt recv (ResultOfEntry entry) chR1 with
                       | (Some _, ch'') => emit recv (sent + 1) cs ch''
                       | (None, ch'') => (None, ch'')
                       end
                 end) = (Some tt, chR') /\
                match
                  (match createEntry keysOnly returnSizes c with
                   | inr _ => emit consumer sent cs ch1
                   | inl entry =>
                       if doFilter filters && negb (filterFn filters entry)
                       then emit consumer sent cs ch1
                       else
                         match sendOrInterrupt consumer (ResultOfEntry entry) ch1 with
                         | (Some _, ch'') => emit consumer (sent + 1) cs ch''
                         | (None, ch'') => (None, ch'')
                         end
                   end)
                with
                | (Some _, ch') => delivered ch' = delivered chR'
                | (None, ch') => cut_short (delivered ch') (delivered chR')
                end) as Hbody.
    { intros ch1 chR1 H1.
      destruct (createEntry keysOnly returnSizes c) as [e|e]; [|by apply IH].
      destruct (doFilter filters && negb (filterFn filters e)); [by apply IH|].
      rewrite (StreamerFacts.send_received recv Hrecv).
      destruct (send_cases (ResultOfEntry e) ch1 chR1 H1)
        as [(ch2 & -> & H2)|(ch2 & notified & -> & H2)].
      - by apply IH.
      - destruct (emit_appends cs (sent + 1) (deliver (ResultOfEntry e) chR1))
          as (chR' & l & -> & Hl).
        exists chR'. split; [done|].
        exists (delivered chR1), notified, (ResultOfEntry e), l.
        split; [done|]. rewrite Hl. simpl. by rewrite <- app_assoc. }
    rewrite !StreamerFacts.emit_cons, Hopen.
    unfold reportError at 1 2. destruct (cerror c) as [e|] eqn:He.
    + rewrite (StreamerFacts.send_received recv Hrecv).
      destruct (send_cases (ResultOfError e) ch chR Hagree)
        as [(ch1 & -> & H1)|(ch1 & notified & -> & H1)].
      * by apply Hbody.
      * pose proof (StreamerFacts.emit_error_step recv limit filters keysOnly
                      returnSizes sent c cs chR e He (Hrecv _) Hwin) as Hstep.
        rewrite StreamerFacts.emit_cons, Hopen in Hstep.
        unfold reportError in Hstep.
        rewrite He, (StreamerFacts.send_received recv Hrecv) in Hstep.
        rewrite Hstep.
        destruct (emit_appends (clear_error c :: cs) sent
                    (deliver (ResultOfError e) chR)) as (chR' & l & -> & Hl).
        exists chR'. split; [done|].
        exists (delivered chR), notified, (ResultOfError e), l.
        split; [done|]. rewrite Hl. simpl. by rewrite <- app_assoc.
    + simpl. by apply Hbody.
Qed.

Lemma cut_short_app (out all more : list Result) :
  cut_short out all -> cut_short out (all ++ more).
Proof.
  intros (pre & notified & r & l & -> & ->).
  exists pre, notified, r, (l ++ more). by rewrite <- app_assoc.
Qed.

(** The skipping loop, likewise: the same cells are left when the
    consumer stays. *)
Lemma skip_beside (cs : list Cell) (skipped : Z) (ch chR : Chan) :
  delivered ch = delivered chR ->
  exists rest chR',
    skip recv skipped cs chR = (Some rest, chR') /\
    match skip consumer skipped cs ch with
    | (Some rest', ch') => rest' = rest /\ delivered ch' = delivered chR'
    | (None, ch') => cut_short (delivered ch') (delivered chR')
    end.
Proof.
  revert skipped ch chR. induction cs as [|c cs IH]; intros skipped ch chR Hagree.
  - exists [], chR. done.
  - rewrite !StreamerFacts.skip_cons.
    destruct (skipped <? offset) eqn:Hlt; [|by exists (c :: cs), chR].
    unfold reportError at 1 2. destruct (cerror c) as [e|] eqn:He.
    + rewrite (StreamerFacts.send_received recv Hrecv).
      destruct (send_cases (ResultOfError e) ch chR Hagree)
        as [(ch1 & -> & H1)|(ch1 & notified & -> & H1)].
      * destruct (createEntry keysOnly returnSizes c) as [en|en]; [|by apply IH].
        destruct (doFilter filters && negb (filterFn filters en)); by apply IH.
      * assert (forall s, exists rest chR',
                  skip recv s cs (deliver (ResultOfError e) chR)
                    = (Some rest, chR') /\
                  cut_short (delivered ch1) (delivered chR')) as Hnext.
        { intros s.
          destruct (skip_appends cs s (deliver (ResultOfError e) chR))
            as (rest & chR' & l & -> & Hl).
          exists rest, chR'. split; [done|].
          exists (delivered chR), notified, (ResultOfError e), l.
          split; [done|]. rewrite Hl. simpl. by rewrite <- app_assoc. }
        destruct (createEntry keysOnly returnSizes c) as [en|en]; [|apply Hnext].
        destruct (doFilter filters && negb (filterFn filters en)); apply Hnext.
    + destruct (createEntry keysOnly returnSizes c) as [en|en]; [|by apply IH].
      destruct (doFilter filters && negb (filterFn filters en)); by apply IH.
Qed.

(** The whole streamer under any consumer, beside the run in which
    every event is received. *)
Lemma streamer_beside (cs : list Cell) :
  exists chR,
    streamer recv offset limit filters keysOnly returnSizes cs (mkChan [] 0)
      = (Some tt, chR) /\
    match streamer consumer offset limit filters keysOnly returnSizes cs
            (mkChan [] 0) with
    | (Some _, ch) => delivered ch = delivered chR
    | (None, ch) => cut_short (delivered ch) (delivered chR)
    end.
Proof.
  unfold streamer, bind.
  destruct (skip_beside cs 0 (mkChan [] 0) (mkChan [] 0) eq_refl)
    as (rest & chR1 & -> & Hskip).
  destruct (skipLoop consumer offset filters keysOnly returnSizes 0 cs
              (mkChan [] 0)) as [[rest'|] ch1].
  - destruct Hskip as [-> Hagree]. by apply emit_beside.
  - destruct (emit_appends rest 0 chR1) as (chR & l & -> & Hl).
    exists chR. split; [done|]. rewrite Hl. by apply cut_short_app.
Qed.

End Loops.

(** A stream that was cut short holds fewer entries, in the same
    order. *)
Lemma cut_short_entries (out all : list Result) :
  cut_short out all -> entries_of out `prefix_of` entries_of all.
Proof.
  intros (pre & notified & r & more & -> & ->).
  rewrite !StreamerFacts.entries_of_app.
  replace (entries_of (close_notice notified)) with (@nil Entry)
    by by destruct notified.
  rewrite app_nil_r. apply prefix_app_r. done.
Qed.

End CutFacts.



(** X13.  What any consumer is handed, whether it stays or goes away.
    The entries delivered are the first ones of the window that offset
    and limit cut from the wanted entries, in the same order; with a
    positive limit there are at most that many; and every delivered
    entry is the entry wanted of one of the cells travelled. *)
Theorem delivered_entries_for_any_consumer
        (consumer : Consumer) (q : query.Query) (cs : list Cell) :
  let got := entries_of (events_from consumer q cs) in
  let window :=
    if Limit q <=? 0 then drop (Z.to_nat (Offset q)) (wanted q cs)
    else take (Z.to_nat (Limit q)) (drop (Z.to_nat (Offset q)) (wanted q cs)) in
  got `prefix_of` window /\
  (0 < Limit q -> Z.of_nat (length got) <= Limit q) /\
  (forall e, e ∈ got ->
     exists c, c ∈ cs /\
               candidate (Filters q) (KeysOnly q) (ReturnsSizes q) c = Some e).
Proof.
  intros got window.
  assert (got `prefix_of` window) as Hpre.
  { subst got window. unfold events_from, stream_of, wanted.
    pose (recv := (fun _ => Received) : Consumer).
    assert (receiving recv) as Hrecv by done.
    destruct (CutFacts.streamer_beside consumer recv Hrecv (Offset q) (Limit q)
                (Filters q) (KeysOnly q) (ReturnsSizes q) cs)
      as (chR & HR & Hside).
    destruct (StreamerFacts.streamer_received recv (Offset q) (Limit q)
                (Filters q) (KeysOnly q) (ReturnsSizes q) Hrecv cs)
      as (chR' & HR' & Hent & _).
    rewrite HR in HR'. injection HR' as <-. rewrite <- Hent.
    destruct (streamer consumer _ _ _ _ _ cs (mkChan [] 0)) as [[[]|] ch];
      simpl.
    - by rewrite Hside.
    - by apply CutFacts.cut_short_entries. }
  split; [exact Hpre|]. split.
  - intros Hlim. apply prefix_length in Hpre. subst window.
    destruct (Limit q <=? 0) eqn:Hle; [lia|].
    rewrite length_take in Hpre. lia.
  - intros e He.
    assert (e ∈ wanted q cs) as Hin.
    { eapply elem_of_prefix in He; [|exact Hpre]. subst window.
      destruct (Limit q <=? 0).
      - by eapply subseteq_drop.
      - by eapply subseteq_drop, subseteq_take. }
    unfold wanted, candidates in Hin.
    by apply list_elem_of_omap in Hin.
Qed.

Lemma delivered_entries_for_any_consumer_witness :
  let gone : Consumer := fun n => if (n =? 1)%nat then Gone false else Received in
  let q := with_Limit 2 Sample.sampleQuery in
  Z.of_nat (length (entries_of (events_from gone q (cells Sample.sampleDB)))) <= 2.
Proof.
  intros gone q.
  apply (proj1 (proj2 (delivered_entries_for_any_consumer gone q
                         (cells Sample.sampleDB)))).
  reflexivity.
Defined.

(** X14.  A native query delivers stored data only.  Whatever the
    consumer does, every entry in the results of [Query] is the entry
    made of a cell of the store whose key lies under the lower bound of
    the scan, it carries the key of that cell, and it passes every
    filter of the query. *)
Theorem Query_delivers_stored_entries `{GoDatastore}
        (consumer : Consumer) (d : Datastore) (q : query.Query)
        (res : Results) (i : nat) (e : Entry) :
  native (Orders q) = true -> newIterErr (db d) = None ->
  snd (Query consumer d q) = inl res ->
  entries_of (REvents res) !! i = Some e ->
  exists c,
    c ∈ cells (db d) /\
    HasPrefix (ckey c) (LowerBound (scan_options q)) = true /\
    createEntry (KeysOnly q) (ReturnsSizes q) c = inl e /\
    Key e = ckey c /\
    forallb (fun f : Filter => f e) (Filters q) = true.
Proof.
  intros Hn Herr Hres Hi.
  rewrite (QueryFacts.Query_native_run consumer d q Hn Herr) in Hres.
  simpl in Hres. injection Hres as <-. simpl in Hi.
  pose (recv := (fun _ => Received) : Consumer).
  assert (receiving recv) as Hrecv by done.
  set (cs := shown (db d) q) in *.
  assert (entries_of
            (delivered (snd (streamer consumer (Offset q) (Limit q) (Filters q)
                               (KeysOnly q) (ReturnsSizes q) cs (mkChan [] 0))))
          ⊆ candidates (Filters q) (KeysOnly q) (ReturnsSizes q) cs) as Hsub.
  { destruct (CutFacts.streamer_beside consumer recv Hrecv (Offset q) (Limit q)
                (Filters q) (KeysOnly q) (ReturnsSizes q) cs)
      as (chR & HR & Hside).
    destruct (StreamerFacts.streamer_received recv (Offset q) (Limit q)
                (Filters q) (KeysOnly q) (ReturnsSizes q) Hrecv cs)
      as (chR' & HR' & Hent & _).
    rewrite HR in HR'. injection HR' as <-.
    assert (entries_of (delivered chR)
            ⊆ candidates (Filters q) (KeysOnly q) (ReturnsSizes q) cs) as Hall.
    { rewrite Hent. destruct (Limit q <=? 0).
      - apply subseteq_drop.
      - etrans; [apply subseteq_take | apply subseteq_drop]. }
    destruct (streamer consumer _ _ _ _ _ cs (mkChan [] 0)) as [[[]|] ch];
      simpl.
    - by rewrite Hside.
    - intros x Hx. apply Hall.
      eapply elem_of_prefix; [exact Hx|].
      by apply CutFacts.cut_short_entries. }
  apply list_elem_of_lookup_2 in Hi. apply Hsub in Hi.
  apply list_elem_of_omap in Hi as (c & Hc & Hcand).
  assert (c ∈ scanned (db d) q) as Hscan.
  { subst cs. unfold shown in Hc.
    destruct (descending (Orders q)); [|exact Hc].
    by apply elem_of_reverse. }
  apply RunFacts.scanned_prefix in Hscan as [Hcell Hpre].
  exists c. split; [done|]. split; [done|].
  unfold candidate in Hcand.
  destruct (createEntry (KeysOnly q) (ReturnsSizes q) c) as [e'|] eqn:Hce;
    [|done].
  destruct (forallb (fun f : Filter => f e') (Filters q)) eqn:Hf; [|done].
  injection Hcand as <-. split; [done|]. split; [|done].
  unfold createEntry in Hce.
  destruct (cvalue c); destruct (KeysOnly q), (ReturnsSizes q);
    simpl in Hce; by simplify_eq.
Qed.

Lemma Query_delivers_stored_entries_witness :
  exists c,
    c ∈ cells Sample.sampleDB /\
    createEntry false false c = inl (Sample.entry "/a/2" "y").
Proof.
  destruct (Query_delivers_stored_entries (H := Reference.reference)
              Sample.always (NewDatastore Sample.sampleDB) Sample.sampleQuery
              (mkResults Sample.sampleQuery
                 [ResultOfEntry (Sample.entry "/a/1" "x");
                  ResultOfEntry (Sample.entry "/a/2" "y")])
              1%nat (Sample.entry "/a/2" "y"))
    as (c & Hc & _ & Hce & _); try reflexivity.
  by exists c.
Defined.

(** ** Progress of [Close] *)

Module CloseProgressFacts.














End CloseProgressFacts.



(** ** The order of the entries *)

Module OrderFacts.

Lemma prefix_sublist {A} (l1 l2 : list A) :
  l1 `prefix_of` l2 -> l1 `sublist_of` l2.
Proof. intros [k ->]. by apply sublist_inserts_r. Qed.

Lemma sublist_reverse {A} (l1 l2 : list A) :
  l1 `sublist_of` l2 -> reverse l1 `sublist_of` reverse l2.
Proof.
  induction 1 as [|x l1 l2 _ IH|x l1 l2 _ IH]; [done| |].
  - rewrite !reverse_cons. by apply sublist_app.
  - rewrite reverse_cons. by apply sublist_inserts_r.
Qed.

Lemma candidate_key (filters : list Filter) (keysOnly returnSizes : bool)
      (c : Cell) (e : Entry) :
  candidate filters keysOnly returnSizes c = Some e -> Key e = ckey c.
Proof.
  unfold candidate, createEntry. intros Hc.
  destruct (cvalue c); destruct keysOnly, returnSizes; simpl in Hc;
    try done;
    by destruct (forallb _ filters); simplify_eq.
Qed.

Lemma candidates_keys (filters : list Filter) (keysOnly returnSizes : bool)
      (cs : list Cell) :
  Key <$> candidates filters keysOnly returnSizes cs `sublist_of` ckey <$> cs.
Proof.
  unfold candidates. induction cs as [|c cs IH]; [done|]. simpl.
  destruct (candidate filters keysOnly returnSizes c) as [e|] eqn:Hc; simpl.
  - rewrite (candidate_key _ _ _ _ _ Hc). by apply sublist_skip.
  - by apply sublist_cons.
Qed.

(** The entries of a stream, under any consumer, are entries wanted of
    the cells, in the order of the cells. *)
Lemma streamed_entries (consumer : Consumer) (offset limit : Z)
      (filters : list Filter) (keysOnly returnSizes : bool) (cs : list Cell) :
  entries_of
    (delivered (snd (streamer consumer offset limit filters keysOnly
                       returnSizes cs (mkChan [] 0))))
  `sublist_of` candidates filters keysOnly returnSizes cs.
Proof.
  pose (recv := (fun _ => Received) : Consumer).
  assert (receiving recv) as Hrecv by done.
  destruct (CutFacts.streamer_beside consumer recv Hrecv offset limit
              filters keysOnly returnSizes cs) as (chR & HR & Hside).
  destruct (StreamerFacts.streamer_received recv offset limit
              filters keysOnly returnSizes Hrecv cs)
    as (chR' & HR' & Hent & _).
  rewrite HR in HR'. injection HR' as <-.
  assert (entries_of (delivered chR)
          `sublist_of` candidates filters keysOnly returnSizes cs) as Hall.
  { rewrite Hent. destruct (limit <=? 0).
    - apply sublist_drop.
    - etrans; [apply sublist_take | apply sublist_drop]. }
  destruct (streamer consumer _ _ _ _ _ cs (mkChan [] 0)) as [[[]|] ch];
    simpl.
  - by rewrite Hside.
  - etrans; [|exact Hall].
    by apply prefix_sublist, CutFacts.cut_short_entries.
Qed.

End OrderFacts.

(** X16.  A native query keeps the order of the cursor.  Whatever the
    consumer does, the keys of the entries in the results of [Query]
    come in the order in which the engine holds the keys, and in the
    reverse of that order for the descending key order: filters, offset
    and limit leave entries out, they never reorder or repeat one. *)
Theorem Query_keeps_cursor_order `{GoDatastore}
        (consumer : Consumer) (d : Datastore) (q : query.Query)
        (res : Results) :
  native (Orders q) = true -> newIterErr (db d) = None ->
  snd (Query consumer d q) = inl res ->
  Key <$> entries_of (REvents res)
  `sublist_of`
  (if descending (Orders q) then reverse (ckey <$> cells (db d))
   else ckey <$> cells (db d)).
Proof.
  intros Hn Herr Hres.
  rewrite (QueryFacts.Query_native_run consumer d q Hn Herr) in Hres.
  simpl in Hres. injection Hres as <-. simpl.
  etrans; [apply fmap_sublist, OrderFacts.streamed_entries|].
  etrans; [apply OrderFacts.candidates_keys|].
  assert (ckey <$> scanned (db d) q `sublist_of` ckey <$> cells (db d))
    as Hscan by apply fmap_sublist, sublist_filter.
  unfold shown. destruct (descending (Orders q)); [|done].
  rewrite fmap_reverse. by apply OrderFacts.sublist_reverse.
Qed.

Lemma Query_keeps_cursor_order_witness :
  let q := with_Orders [OrderByKeyDescending] Sample.sampleQuery in
  [Sample.bs "/a/2"; Sample.bs "/a/1"]
  `sublist_of` reverse (ckey <$> cells Sample.sampleDB).
Proof.
  intros q.
  apply (Query_keeps_cursor_order (H := Reference.reference)
           Sample.always (NewDatastore Sample.sampleDB) q
           (mkResults q [ResultOfEntry (Sample.entry "/a/2" "y");
                         ResultOfEntry (Sample.entry "/a/1" "x")]));
    reflexivity.
Defined.

(** X17.  What the fallback hands to the library.  For a query that
    the planner sends to [inefficientOrderQuery], whatever the consumer
    does, [Query] returns what the library's in-memory evaluation makes
    of a stream that carries the original query, and the query given to
    that evaluation asks for no prefix and no filter again.  The
    entries of the stream are entries wanted of the cells under the
    prefix, each passes every filter of the query, and they come in the
    key order of the base query. *)
Theorem Query_fallback_hands_over `{GoDatastore}
        (consumer : Consumer) (d : Datastore) (q : query.Query)
        (base : option Order) :
  plan (Orders q) = PlanFallback base -> newIterErr (db d) = None ->
  let bq := baseQuery_of q base in
  exists evs,
    snd (Query consumer d q) =
      inl (NaiveQueryApply (naiveQuery_of q) (mkResults q evs)) /\
    Prefix (naiveQuery_of q) = [] /\ Filters (naiveQuery_of q) = [] /\
    entries_of evs `sublist_of` wanted q (shown (db d) bq) /\
    Key <$> entries_of evs
      `sublist_of`
      (if descending (Orders bq) then reverse (ckey <$> cells (db d))
       else ckey <$> cells (db d)) /\
    (forall e, e ∈ entries_of evs ->
               forallb (fun f : Filter => f e) (Filters q) = true).
Proof.
  intros Hplan Herr bq.
  rewrite (RunFacts.Query_fallback_plan consumer d q base Hplan Herr).
  cbv zeta. fold bq.
  eexists. split; [reflexivity|]. split; [done|]. split; [done|].
  pose proof (OrderFacts.streamed_entries consumer 0 0 (Filters q)
                (KeysOnly q) (ReturnsSizes q) (shown (db d) bq)) as Hsub.
  split; [exact Hsub|]. split.
  - etrans; [apply fmap_sublist, Hsub|].
    etrans; [apply OrderFacts.candidates_keys|].
    assert (ckey <$> scanned (db d) bq `sublist_of` ckey <$> cells (db d))
      as Hscan by apply fmap_sublist, sublist_filter.
    unfold shown. destruct (descending (Orders bq)); [|done].
    rewrite fmap_reverse. by apply OrderFacts.sublist_reverse.
  - intros e He. apply (sublist_subseteq _ _ Hsub) in He.
    unfold candidates in He.
    apply list_elem_of_omap in He as (c & _ & Hc).
    unfold candidate in Hc.
    destruct (createEntry (KeysOnly q) (ReturnsSizes q) c) as [e'|]; [|done].
    destruct (forallb (fun f : Filter => f e') (Filters q)) eqn:Hf; [|done].
    by injection Hc as <-.
Qed.

Lemma Query_fallback_hands_over_witness :
  let q := with_Orders [Sample.byValueSize] Sample.sampleQuery in
  exists evs,
    snd (Query (H := Reference.reference) Sample.always
               (NewDatastore Sample.sampleDB) q) =
      inl (NaiveQueryApply (naiveQuery_of q) (mkResults q evs)) /\
    Filters (naiveQuery_of q) = [].
Proof.
  intros q.
  destruct (Query_fallback_hands_over (H := Reference.reference)
              Sample.always (NewDatastore Sample.sampleDB) q None
              eq_refl eq_refl)
    as (evs & Hres & _ & Hfilters & _).
  by exists evs.
Defined.

(** X18.  An offset of zero or less skips nothing.  The skipping loop
    then leaves at once, from any state of the cursor and the channel:
    it consumes no cell and sends nothing, so an error of the cursor at
    its first position is left to the emitting loop.  Hence the
    goroutine behaves as with offset 0, and a native query with a
    negative offset leaves the datastore in the same state and delivers
    the same events as with offset 0, for every consumer. *)
Theorem Query_nonpositive_offset `{GoDatastore}
        (consumer : Consumer) (d : Datastore) (q : query.Query) :
  Offset q <= 0 ->
  (forall cs ch,
     skipLoop consumer (Offset q) (Filters q) (KeysOnly q) (ReturnsSizes q)
              0 cs ch = (Some cs, ch)) /\
  (forall cs ch, stream_of consumer q cs ch =
                 stream_of consumer (with_Offset 0 q) cs ch) /\
  (native (Orders q) = true ->
   fst (Query consumer d q) = fst (Query consumer d (with_Offset 0 q)) /\
   events_of (snd (Query consumer d q)) =
   events_of (snd (Query consumer d (with_Offset 0 q)))).
Proof.
  intros Hoff.
  assert (forall offset cs ch,
            offset <= 0 ->
            skipLoop consumer offset (Filters q) (KeysOnly q) (ReturnsSizes q)
                     0 cs ch = (Some cs, ch)) as Hskip.
  { intros offset [|c cs] ch Hle; [done|].
    rewrite StreamerFacts.skip_cons.
    by replace (0 <? offset) with false by lia. }
  assert (forall cs ch, stream_of consumer q cs ch =
                        stream_of consumer (with_Offset 0 q) cs ch) as Hsame.
  { intros cs ch. unfold stream_of, streamer, bind. simpl.
    by rewrite (Hskip (Offset q) cs ch Hoff), (Hskip 0 cs ch (Z.le_refl 0)). }
  split; [intros cs ch; by apply Hskip|]. split; [exact Hsame|].
  intros Hn. destruct (newIterErr (db d)) as [err|] eqn:Herr.
  - by rewrite !(RunFacts.Query_refused consumer d _ err Herr).
  - rewrite (QueryFacts.Query_native_run consumer d q Hn Herr).
    rewrite (QueryFacts.Query_native_run consumer d (with_Offset 0 q) Hn Herr).
    split; [done|]. simpl.
    pose proof (Hsame (shown (db d) q) (mkChan [] 0)) as Hs.
    unfold stream_of in Hs. simpl in Hs. by rewrite Hs.
Qed.

Lemma Query_nonpositive_offset_witness :
  let q := with_Offset (-3) Sample.sampleQuery in
  events_of (snd (Query (H := Reference.reference) Sample.always
                        (NewDatastore Sample.sampleDB) q)) =
  events_of (snd (Query (H := Reference.reference) Sample.always
                        (NewDatastore Sample.sampleDB)
                        (with_Offset 0 q))).
Proof.
  intros q.
  apply (proj2 (proj2 (Query_nonpositive_offset (H := Reference.reference)
                         Sample.always (NewDatastore Sample.sampleDB) q
                         ltac:(simpl; lia)))).
  reflexivity.
Defined.
